(** * Knox token authentication: [knox/auth.py]

    A shallow embedding of [TokenAuthentication] and the properties of its
    credential verification: header parsing, the candidate loop, the lazy
    expiry sweep and the throttled renewal.

    Conventions of the embedding.
    - Python [bytes] are [string] (one [ascii] per byte); Python [str] is
      [text], a list of code points.
    - A [datetime] is a number of microseconds, a [timedelta] likewise.
    - Code that touches the database, the signal bus or the wall clock runs in
      the monad [M], which threads a [World] and may raise an exception.
    - What the module imports from outside the file (settings, [hash_token],
      the codec, the clock, the database driver) is gathered in two records,
      [Settings] and [Host], over which every definition is parametric. *)

From Stdlib Require Import List String Ascii ZArith NArith Bool Lia Arith.
Import ListNotations.

Local Open Scope string_scope.
Local Open Scope list_scope.

(** ** Values *)

Definition text := list N.

Definition text_eq_dec : forall a b : text, {a = b} + {a <> b} :=
  list_eq_dec N.eq_dec.

Definition text_eqb (a b : text) : bool :=
  if text_eq_dec a b then true else false.

(** The code points of a 7-bit literal; used to write down examples. *)
Definition txt (s : string) : text :=
  map N_of_ascii (list_ascii_of_string s).

(** Exceptions that can leave the module.  Those the module raises or
    names have a constructor of their own; [OtherException] stands for an
    exception of any other class that a collaborator raises. *)
Inductive exn : Type :=
| AuthenticationFailed (msg : string)
| TypeError
| BinasciiError
| UnicodeDecodeError
| DatabaseError
| ValueError
| OtherException (cls : string).

(** [django.contrib.auth] user, as far as the module reads it. *)
Record User : Type := mkUser {
  user_id   : nat;
  username  : text;
  is_active : bool
}.

(** Modelled from the spec: the [AuthToken] model of [knox.models], which is
    not among the sources.  A row has the fields of the spec's TokenRecord;
    it is identified by its [digest], the field by which [_cleanup_token]
    tells a sibling from the candidate.  The foreign key [user] is kept
    resolved: a row carries its owner's record. *)
Record AuthToken : Type := mkAuthToken {
  digest    : text;
  token_key : text;
  salt      : text;
  user      : User;
  expires   : option Z
}.

Definition set_expires (t : AuthToken) (e : option Z) : AuthToken :=
  mkAuthToken (digest t) (token_key t) (salt t) (user t) e.

(** [token_expired.send(sender, username, source)]. *)
Record Signal : Type := TokenExpired {
  sig_username : text;
  sig_source   : string
}.

(** ** The world *)

Record World : Type := mkWorld {
  db      : list AuthToken;  (* the AuthToken table, in store order *)
  signals : list Signal;     (* what token_expired has sent, oldest first *)
  ticks   : nat;             (* how often the clock has been read *)
  muts    : nat              (* how many store mutations have been issued *)
}.

Record Settings : Type := mkSettings {
  TOKEN_KEY_LENGTH     : nat;   (* CONSTANTS.TOKEN_KEY_LENGTH *)
  AUTO_REFRESH         : bool;  (* knox_settings.AUTO_REFRESH *)
  TOKEN_TTL            : Z;     (* knox_settings.TOKEN_TTL, a timedelta *)
  MIN_REFRESH_INTERVAL : Z      (* knox_settings.MIN_REFRESH_INTERVAL, seconds *)
}.

Record Host : Type := mkHost {
  (* knox.crypto.hash_token(token, salt): a digest, or the exception raised *)
  hash_token  : text -> text -> exn + text;
  (* bytes.decode("utf-8"); None when it raises UnicodeDecodeError *)
  decode_utf8 : string -> option text;
  (* the value of the k-th call of timezone.now() *)
  clock       : nat -> Z;
  (* whether the k-th store mutation is refused by the database *)
  store_fault : nat -> bool
}.

(** ** The monad *)

Inductive Result (A : Type) : Type :=
| Ok (a : A)
| Raise (e : exn).

Arguments Ok {A} a.
Arguments Raise {A} e.

Definition M (A : Type) : Type := World -> Result A * World.

Definition ret {A} (a : A) : M A := fun w => (Ok a, w).

Definition raise {A} (e : exn) : M A := fun w => (Raise e, w).

Definition bind {A B} (m : M A) (f : A -> M B) : M B :=
  fun w =>
    match m w with
    | (Ok a, w') => f a w'
    | (Raise e, w') => (Raise e, w')
    end.

Declare Scope knox_scope.
Delimit Scope knox_scope with knox.

Notation "x <- m ;; k" := (bind m (fun x => k))
  (at level 61, m at next level, right associativity) : knox_scope.
Notation "m ;; k" := (bind m (fun _ => k))
  (at level 61, right associativity) : knox_scope.

Local Open Scope knox_scope.

(** ** Bytes: [bytes.split()] and [bytes.lower()] *)

(** ASCII whitespace, as [bytes.split()] without arguments understands it:
    space, tab, line feed, vertical tab, form feed, carriage return. *)
Definition is_space (c : ascii) : bool :=
  let n := nat_of_ascii c in
  Nat.eqb n 32 || (Nat.leb 9 n && Nat.leb n 13).

Definition is_empty (s : string) : bool :=
  match s with EmptyString => true | _ => false end.

(** [cur] is the word being read. *)
Fixpoint split_from (cur : string) (s : string) : list string :=
  match s with
  | EmptyString => if is_empty cur then [] else [cur]
  | String c rest =>
      if is_space c
      then (if is_empty cur then split_from EmptyString rest
            else cur :: split_from EmptyString rest)
      else split_from (cur ++ String c EmptyString) rest
  end.

Definition split (s : string) : list string := split_from EmptyString s.

Definition lower_byte (c : ascii) : ascii :=
  let n := nat_of_ascii c in
  if Nat.leb 65 n && Nat.leb n 90 then ascii_of_nat (n + 32) else c.

Fixpoint lower (s : string) : string :=
  match s with
  | EmptyString => EmptyString
  | String c rest => String (lower_byte c) (lower rest)
  end.

(** ** The module *)

Definition msg_invalid_token : string := "Invalid token.".
Definition msg_no_credentials : string :=
  "Invalid token header. No credentials provided.".
Definition msg_spaces : string :=
  "Invalid token header. Token string should not contain spaces.".
Definition msg_inactive : string := "User inactive or deleted.".

(** [compare_digest(a, b)]: equality, by either import. *)
Definition compare_digest (a b : text) : bool := text_eqb a b.

Section Knox.

Variable cfg : Settings.
Variable host : Host.

(** [timezone.now()] *)
Definition timezone_now : M Z :=
  fun w => (Ok (clock host (ticks w)),
            mkWorld (db w) (signals w) (S (ticks w)) (muts w)).

(** [token_expired.send(sender=..., username=..., source=...)] *)
Definition send (u : text) (source : string) : M unit :=
  fun w => (Ok tt,
            mkWorld (db w) (signals w ++ [TokenExpired u source])
                    (ticks w) (muts w)).

(** A mutation reaches the database or is refused by it. *)
Definition mutate (f : list AuthToken -> Result (list AuthToken)) : M unit :=
  fun w =>
    let w1 := mkWorld (db w) (signals w) (ticks w) (S (muts w)) in
    if store_fault host (muts w) then (Raise DatabaseError, w1)
    else match f (db w) with
         | Ok rows => (Ok tt, mkWorld rows (signals w) (ticks w)
                                      (S (muts w)))
         | Raise e => (Raise e, w1)
         end.

Definition same_row (t r : AuthToken) : bool :=
  text_eqb (digest r) (digest t).

Definition drop_row (t : AuthToken) (rows : list AuthToken) :=
  filter (fun r => negb (same_row t r)) rows.

(** [instance.delete()]: removes the row if it is there.  Django also
    clears the primary key of the instance it was called on; the module never
    hands a deleted instance on: after line 102 it reads the owner of
    [other_token] only, and after line 108 the loop moves to the next
    candidate. *)
Definition delete (t : AuthToken) : M unit :=
  mutate (fun rows => Ok (drop_row t rows)).

Definition write_expires (t : AuthToken) (rows : list AuthToken) :=
  map (fun r => if same_row t r then set_expires r (expires t) else r) rows.

(** [instance.save(update_fields=('expires',))]: an UPDATE of one column,
    which Django turns into a [DatabaseError] when no row was affected. *)
Definition save_expires (t : AuthToken) : M unit :=
  mutate (fun rows =>
            if existsb (same_row t) rows
            then Ok (write_expires t rows)
            else Raise DatabaseError).

(** [AuthToken.objects.filter(token_key=key)], evaluated. *)
Definition filter_token_key (key : text) : M (list AuthToken) :=
  fun w => (Ok (filter (fun r => text_eqb (token_key r) key) (db w)), w).

Definition owned_by (u : User) (r : AuthToken) : bool :=
  Nat.eqb (user_id (user r)) (user_id u).

(** [user.auth_token_set.all()], evaluated. *)
Definition auth_token_set_all (u : User) : M (list AuthToken) :=
  fun w => (Ok (filter (owned_by u) (db w)), w).

(** The first loop of [_cleanup_token], over the evaluated query set. *)
Fixpoint sweep_others (auth_token : AuthToken) (others : list AuthToken)
  : M unit :=
  match others with
  | [] => ret tt
  | other_token :: rest =>
      (if negb (text_eqb (digest other_token) (digest auth_token))
       then match expires other_token with
            | Some e =>
                now <- timezone_now ;;
                if (e <? now)%Z
                then delete other_token ;;
                     send (username (user other_token)) "other_token"
                else ret tt
            | None => ret tt
            end
       else ret tt) ;;
      sweep_others auth_token rest
  end.

Definition _cleanup_token (auth_token : AuthToken) : M bool :=
  others <- auth_token_set_all (user auth_token) ;;
  sweep_others auth_token others ;;
  match expires auth_token with
  | Some e =>
      now <- timezone_now ;;
      if (e <? now)%Z
      then delete auth_token ;;
           send (username (user auth_token)) "auth_token" ;;
           ret true
      else ret false
  | None => ret false
  end.

(** [renew_token] assigns to the instance before it can raise, so the
    instance as the call leaves it is returned beside the outcome. *)
Definition renew_token (auth_token : AuthToken) (w : World)
  : AuthToken * (Result unit * World) :=
  let current_expiry := expires auth_token in
  match timezone_now w with
  | (Raise e, w1) => (auth_token, (Raise e, w1))
  | (Ok now, w1) =>
      let new_expiry := (now + TOKEN_TTL cfg)%Z in
      let auth_token' := set_expires auth_token (Some new_expiry) in
      match current_expiry with
      | None => (auth_token', (Raise TypeError, w1))
      | Some cur =>
          (* total_seconds() > MIN_REFRESH_INTERVAL, in microseconds *)
          if (MIN_REFRESH_INTERVAL cfg * 1000000 <? new_expiry - cur)%Z
          then (auth_token', save_expires auth_token' w1)
          else (auth_token', (Ok tt, w1))
      end
  end.

Definition validate_user (auth_token : AuthToken) : M (User * AuthToken) :=
  if is_active (user auth_token)
  then ret (user auth_token, auth_token)
  else raise (AuthenticationFailed msg_inactive).

(** The loop of [authenticate_credentials] over the evaluated query set:
    what the call does from the moment it reaches the head of [cands]. *)
Fixpoint try_candidates (token : text) (cands : list AuthToken)
  : M (User * AuthToken) :=
  match cands with
  | [] => raise (AuthenticationFailed msg_invalid_token)
  | auth_token :: rest =>
      skip <- _cleanup_token auth_token ;;
      if skip then try_candidates token rest
      else
        match hash_token host token (salt auth_token) with
        | inl TypeError | inl BinasciiError =>
            raise (AuthenticationFailed msg_invalid_token)
        | inl e => raise e
        | inr d =>
            if compare_digest d (digest auth_token)
            then
              if AUTO_REFRESH cfg
              then fun w =>
                     match renew_token auth_token w with
                     | (auth_token', (Ok _, w')) =>
                         validate_user auth_token' w'
                     | (_, (Raise e, w')) => (Raise e, w')
                     end
              else validate_user auth_token
            else try_candidates token rest
        end
  end.

Definition authenticate_credentials (token : string)
  : M (User * AuthToken) :=
  match decode_utf8 host token with
  | None => raise UnicodeDecodeError
  | Some token =>
      cands <- filter_token_key (firstn (TOKEN_KEY_LENGTH cfg) token) ;;
      try_candidates token cands
  end.

(** The request is its [Authorization] header, as
    [get_authorization_header] returns it (empty when absent). *)
Definition authenticate (header : string)
  : M (option (User * AuthToken)) :=
  let auth := split header in
  match auth with
  | [] => ret None
  | scheme :: args =>
      if negb (String.eqb (lower scheme) "token") then ret None
      else match args with
           | [] => raise (AuthenticationFailed msg_no_credentials)
           | [token] =>
               r <- authenticate_credentials token ;;
               ret (Some r)
           | _ :: _ :: _ => raise (AuthenticationFailed msg_spaces)
           end
  end.

End Knox.

(** ** Vocabulary of the statements *)

(** The database refuses no mutation. *)
Definition no_faults (host : Host) : Prop :=
  forall k, store_fault host k = false.

(** Successive readings of the clock do not go back. *)
Definition monotone_clock (host : Host) : Prop :=
  forall i j, (i <= j)%nat -> (clock host i <= clock host j)%Z.

(** The primary key is unique. *)
Definition unique_digests (rows : list AuthToken) : Prop :=
  NoDup (map digest rows).

(** [expires] is set and before [t]. *)
Definition expired_at (t : Z) (r : AuthToken) : bool :=
  match expires r with
  | Some e => (e <? t)%Z
  | None => false
  end.

Definition has_expiry (r : AuthToken) : bool :=
  match expires r with Some _ => true | None => false end.

Definition other_digest (c o : AuthToken) : bool :=
  negb (text_eqb (digest o) (digest c)).

(** The rows among [others] for which the sweep of candidate [c] reads the
    clock: another digest, and an expiry to compare. *)
Definition dated_others (c : AuthToken) (others : list AuthToken)
  : list AuthToken :=
  filter (fun o => other_digest c o && has_expiry o) others.

(** The rows among [others] that the sweep of [c] finds expired, when it
    starts with [n] readings of the clock behind it: the j-th dated row is
    held against reading [n + j]. *)
Definition swept (host : Host) (c : AuthToken) (n : nat)
           (others : list AuthToken) : list AuthToken :=
  let dated := dated_others c others in
  map fst
      (filter (fun p => expired_at (snd p) (fst p))
              (combine dated (map (clock host) (seq n (List.length dated))))).

(** The table without the rows that share a digest with one of [gone]. *)
Definition drop_rows (gone rows : list AuthToken) : list AuthToken :=
  filter (fun r => negb (existsb (fun t => same_row t r) gone)) rows.

Definition other_signal (o : AuthToken) : Signal :=
  TokenExpired (username (user o)) "other_token".

Definition auth_signal (c : AuthToken) : Signal :=
  TokenExpired (username (user c)) "auth_token".

(** ** Progress of the candidate loop *)

(** [reaches host token cands w l w'] : the loop of
    [authenticate_credentials], started on the candidates [cands] in world
    [w], comes to stand before the remaining candidates [l] in world [w'].
    It moves past a candidate when the cleanup pass reports it expired, and
    when its digest is computed and differs. *)
Inductive reaches (host : Host) (token : text)
  : list AuthToken -> World -> list AuthToken -> World -> Prop :=
| reaches_here cands w :
    reaches host token cands w cands w
| reaches_skip c rest w w1 l w' :
    _cleanup_token host c w = (Ok true, w1) ->
    reaches host token rest w1 l w' ->
    reaches host token (c :: rest) w l w'
| reaches_mismatch c rest w w1 d l w' :
    _cleanup_token host c w = (Ok false, w1) ->
    hash_token host token (salt c) = inr d ->
    compare_digest d (digest c) = false ->
    reaches host token rest w1 l w' ->
    reaches host token (c :: rest) w l w'.

(** [AuthToken.objects.filter(token_key=token[:TOKEN_KEY_LENGTH])] on the
    table of [w]: the candidates of a call. *)
Definition candidates (cfg : Settings) (token : text) (w : World)
  : list AuthToken :=
  filter (fun r => text_eqb (token_key r) (firstn (TOKEN_KEY_LENGTH cfg) token))
         (db w).

(** The header without its white space. *)
Fixpoint without_spaces (s : string) : string :=
  match s with
  | EmptyString => EmptyString
  | String c rest =>
      if is_space c then without_spaces rest
      else String c (without_spaces rest)
  end.

Definition space_free (s : string) : Prop :=
  forallb (fun c => negb (is_space c)) (list_ascii_of_string s) = true.

(** ** More of the module, and vocabulary for it *)

(** [authenticate_header]: the scheme announced to a client that was not
    authenticated. *)
Definition authenticate_header (request : string) : string := "Token".

(** White space only. *)
Definition blank (s : string) : Prop :=
  forallb is_space (list_ascii_of_string s) = true.

(** What [authenticate] makes of the outcome of [authenticate_credentials]. *)
Definition delegated (r : Result (User * AuthToken) * World)
  : Result (option (User * AuthToken)) * World :=
  match r with
  | (Ok ua, w') => (Ok (Some ua), w')
  | (Raise e, w') => (Raise e, w')
  end.

(** [r'] is the row [r] with, at most, another [expires]. *)
Definition same_identity (r r' : AuthToken) : Prop :=
  digest r' = digest r /\ token_key r' = token_key r /\
  salt r' = salt r /\ user r' = user r.

(** [thinned rows rows'] : the table [rows'] is the table [rows] with some
    rows removed and the others kept in place, each with its identity. *)
Inductive thinned : list AuthToken -> list AuthToken -> Prop :=
| thinned_nil : thinned [] []
| thinned_drop r rows rows' :
    thinned rows rows' -> thinned (r :: rows) rows'
| thinned_keep r r' rows rows' :
    same_identity r r' -> thinned rows rows' ->
    thinned (r :: rows) (r' :: rows').

(** A signal that tells the truth about the table [rows]: it has one of the
    two sources and names the owner of a row of [base] whose digest is not in
    [rows]. *)
Definition truthful (base rows : list AuthToken) (s : Signal) : Prop :=
  (sig_source s = "other_token" \/ sig_source s = "auth_token") /\
  exists r, In r base /\ sig_username s = username (user r) /\
            ~ In (digest r) (map digest rows).

(** [evolves host base w w'] : what a stretch of cleanup may do to the world.
    The clock and the mutation count advance; the table is filtered; with
    unique digests in [base] a row leaves the table only if it was expired
    at a reading of the stretch; the signals sent are truthful. *)
Definition evolves (host : Host) (base : list AuthToken) (w w' : World)
  : Prop :=
  ticks w <= ticks w' /\ muts w <= muts w' /\
  (exists p, db w' = filter p (db w)) /\
  (unique_digests base ->
   forall r, In r (db w) ->
             In r (db w') \/
             exists k, ticks w <= k /\ k < ticks w' /\
                       expired_at (clock host k) r = true) /\
  (exists more, signals w' = signals w ++ more /\
                Forall (truthful base (db w')) more).

(** Rows of [base] are in the table of [w] unless they were expired at a
    reading already taken. *)
Definition kept_unless_expired (host : Host) (base : list AuthToken)
           (w : World) : Prop :=
  incl (db w) base /\
  forall r, In r base ->
            In r (db w) \/
            exists k, k < ticks w /\ expired_at (clock host k) r = true.

(** ** The header, said without [split] and [lower] *)

(** A word: not empty, no white space in it. *)
Definition word (x : string) : Prop :=
  x <> EmptyString /\ space_free x.

(** [layout header ws] : the header is the words [ws], in this order, with
    white space between any two of them and possibly before the first and
    after the last, and nothing else. *)
Inductive layout : string -> list string -> Prop :=
| layout_none sp :
    blank sp -> layout sp []
| layout_last sp x :
    blank sp -> word x -> layout (sp ++ x) [x]
| layout_more sp x gap rest ws :
    blank sp -> word x -> blank gap -> gap <> EmptyString ->
    layout rest ws ->
    layout (sp ++ x ++ gap ++ rest) (x :: ws).

(** One of the two cases of a letter. *)
Definition letter (small capital c : ascii) : Prop :=
  c = small \/ c = capital.

(** The five letters t, o, k, e, n, each in either case. *)
Definition spells_token (s : string) : Prop :=
  exists t o k e n,
    s = String t (String o (String k (String e (String n EmptyString)))) /\
    letter "t" "T" t /\ letter "o" "O" o /\ letter "k" "K" k /\
    letter "e" "E" e /\ letter "n" "N" n.

(** The first of the [n] mutations numbered from [m] that the database
    refuses, counted from 0, if there is one. *)
Fixpoint first_refusal (host : Host) (m n : nat) : option nat :=
  match n with
  | 0 => None
  | S n' =>
      if store_fault host m then Some 0
      else option_map S (first_refusal host (S m) n')
  end.

(** The deletions a cleanup pass for [c] attempts in world [w], in order:
    the rows it sweeps, then [c] itself if it finds it expired. *)
Definition doomed (host : Host) (c : AuthToken) (w : World)
  : list AuthToken :=
  let others := filter (owned_by (user c)) (db w) in
  swept host c (ticks w) others ++
  (if expired_at
        (clock host (ticks w + List.length (dated_others c others))) c
   then [c] else []).

(** ** A small installation, for examples *)

(** UTF-8 restricted to 7-bit input, where it is the identity; anything else
    is refused. *)
Definition decode_7bit (s : string) : option text :=
  if forallb (fun c => Nat.ltb (nat_of_ascii c) 128) (list_ascii_of_string s)
  then Some (txt s) else None.

(** A stand-in for [hash_token]: like [unhexlify] it refuses a token of odd
    length; the digest is the salt followed by the token. *)
Definition demo_hash (token salt : text) : exn + text :=
  if Nat.even (List.length token) then inr (salt ++ token) else inl BinasciiError.

(** The clock starts at 1000 and advances by one at each reading; the
    database is sound. *)
Definition demo_host : Host :=
  mkHost demo_hash decode_7bit (fun k => 1000 + Z.of_nat k)%Z (fun _ => false).

(** The same, with a database that refuses every mutation. *)
Definition failing_host : Host :=
  mkHost demo_hash decode_7bit (fun k => 1000 + Z.of_nat k)%Z (fun _ => true).


(** The installation with a database that refuses its second mutation
    only. *)
Definition second_refused_host : Host :=
  mkHost demo_hash decode_7bit (fun k => 1000 + Z.of_nat k)%Z
         (fun k => Nat.eqb k 1).

Definition demo_cfg (refresh : bool) : Settings :=
  mkSettings 8 refresh 36000000000 60.

Definition alice : User := mkUser 1 (txt "alice") true.
Definition bob : User := mkUser 2 (txt "bob") false.

Definition demo_token (secret salt_ : string) (u : User) (e : option Z)
  : AuthToken :=
  mkAuthToken (txt salt_ ++ txt secret) (firstn 8 (txt secret)) (txt salt_) u e.

Definition world_of (rows : list AuthToken) : World := mkWorld rows [] 0 0.

(** Tokens presented in the examples: a secret, another secret with the same
    key, and a token of odd length, which the stand-in hash refuses. *)
Definition tok_cafe : string := "abc12345cafe".
Definition tok_beef : string := "abc12345beef".
Definition tok_odd : string := "abc12345caf".

(** Rows issued for [tok_cafe]. *)
Definition row_plain : AuthToken := demo_token tok_cafe "s1" alice None.
Definition row_stale : AuthToken := demo_token tok_cafe "s1" alice (Some 500%Z).
Definition row_live : AuthToken := demo_token tok_cafe "s1" alice (Some 5000%Z).
Definition row_bob : AuthToken := demo_token tok_cafe "s1" bob None.

(** Other rows: two more of alice, one of bob. *)
Definition row_old : AuthToken := demo_token tok_beef "s2" alice (Some 900%Z).
Definition row_keep : AuthToken :=
  demo_token "abc12345f00d" "s3" alice (Some 5000%Z).
Definition row_far : AuthToken := demo_token "fedcba98d00d" "s4" bob (Some 1%Z).

Definition sweep_world : World :=
  world_of [row_stale; row_old; row_keep; row_far].

(** [sweep_world] after a call that presents [tok_cafe]. *)
Definition sweep_world_after : World :=
  mkWorld [row_keep; row_far]
          [other_signal row_old; auth_signal row_stale; auth_signal row_old]
          6 3.

(** ** Tokens outside ASCII, for examples *)

(** UTF-8 for code points below U+0800, on the bytes as numbers; longer
    sequences are refused. *)
Fixpoint decode_bytes (l : list nat) : option text :=
  match l with
  | [] => Some []
  | b :: rest =>
      if Nat.ltb b 128
      then option_map (cons (N.of_nat b)) (decode_bytes rest)
      else if Nat.leb 194 b && Nat.leb b 223
      then match rest with
           | b2 :: rest' =>
               if Nat.leb 128 b2 && Nat.leb b2 191
               then option_map (cons (N.of_nat ((b - 192) * 64 + (b2 - 128))))
                               (decode_bytes rest')
               else None
           | [] => None
           end
      else None
  end.

Definition decode_short (s : string) : option text :=
  decode_bytes (map nat_of_ascii (list_ascii_of_string s)).

(** A stand-in for [hash_token] that, like [unhexlify] on a [str], raises
    [ValueError] on a character outside ASCII. *)
Definition ascii_hash (token salt : text) : exn + text :=
  if forallb (fun c => N.ltb c 128) token
  then demo_hash token salt
  else inl ValueError.

Definition unicode_host : Host :=
  mkHost ascii_hash decode_short (fun k => 1000 + Z.of_nat k)%Z (fun _ => false).

(** "abc12345caf" followed by U+00E9, in UTF-8. *)
Definition tok_accent : string :=
  "abc12345caf" ++ String (ascii_of_nat 195) (String (ascii_of_nat 169) "").

(** An expired row of bob under the key of [tok_cafe], and the token that
    [row_keep] was issued for. *)
Definition row_bob_stale : AuthToken :=
  demo_token "abc12345d00d" "s5" bob (Some 1%Z).
Definition tok_food : string := "abc12345f00d".

(** * Properties *)

(** ** Equality of texts *)

Lemma text_eqb_eq (a b : text) : text_eqb a b = true <-> a = b.
Proof. unfold text_eqb; destruct (text_eq_dec a b); split; congruence. Qed.

Lemma text_eqb_neq (a b : text) : text_eqb a b = false <-> a <> b.
Proof. unfold text_eqb; destruct (text_eq_dec a b); split; congruence. Qed.

Lemma text_eqb_refl (a : text) : text_eqb a a = true.
Proof. now apply text_eqb_eq. Qed.

Lemma text_eqb_sym (a b : text) : text_eqb a b = text_eqb b a.
Proof.
  unfold text_eqb; destruct (text_eq_dec a b), (text_eq_dec b a); congruence.
Qed.

(** ** Lists *)

Lemma filter_twice (A : Type) (p q : A -> bool) (l : list A) :
  filter p (filter q l) = filter (fun x => q x && p x) l.
Proof.
  induction l as [|x l IH]; simpl; [reflexivity|].
  destruct (q x); simpl; [destruct (p x)|]; now rewrite IH.
Qed.

Lemma filter_all (A : Type) (p : A -> bool) (l : list A) :
  (forall x, In x l -> p x = true) -> filter p l = l.
Proof.
  induction l as [|x l IH]; simpl; intros Hp; [reflexivity|].
  rewrite (Hp x (or_introl eq_refl)), IH; [reflexivity|].
  intros y Hy; apply Hp; now right.
Qed.

Lemma drop_rows_nil (rows : list AuthToken) : drop_rows [] rows = rows.
Proof. unfold drop_rows; simpl; now apply filter_all. Qed.

Lemma drop_rows_cons (t : AuthToken) (gone rows : list AuthToken) :
  drop_rows gone (drop_row t rows) = drop_rows (t :: gone) rows.
Proof.
  unfold drop_rows, drop_row; rewrite filter_twice.
  apply filter_ext; intros r; simpl.
  now rewrite negb_orb.
Qed.

Lemma drop_rows_snoc (t : AuthToken) (gone rows : list AuthToken) :
  drop_row t (drop_rows gone rows) = drop_rows (gone ++ [t]) rows.
Proof.
  unfold drop_rows, drop_row; rewrite filter_twice.
  apply filter_ext; intros r.
  rewrite existsb_app; simpl.
  now rewrite orb_false_r, negb_orb.
Qed.

(** ** The sweep, row by row *)

Lemma swept_nil (host : Host) (c : AuthToken) (n : nat) :
  swept host c n [] = [].
Proof. reflexivity. Qed.

Lemma swept_cons (host : Host) (c o : AuthToken) (n : nat)
      (rest : list AuthToken) :
  swept host c n (o :: rest) =
  if other_digest c o && has_expiry o
  then if expired_at (clock host n) o
       then o :: swept host c (S n) rest
       else swept host c (S n) rest
  else swept host c n rest.
Proof.
  unfold swept, dated_others; simpl.
  destruct (other_digest c o && has_expiry o); simpl; [|reflexivity].
  destruct (expired_at (clock host n) o); reflexivity.
Qed.

Lemma dated_others_cons (c o : AuthToken) (rest : list AuthToken) :
  dated_others c (o :: rest) =
  if other_digest c o && has_expiry o
  then o :: dated_others c rest
  else dated_others c rest.
Proof. reflexivity. Qed.

Lemma delete_sound (host : Host) (t : AuthToken) (w : World) :
  no_faults host ->
  delete host t w =
  (Ok tt, mkWorld (drop_row t (db w)) (signals w) (ticks w) (S (muts w))).
Proof.
  intros Hnf; unfold delete, mutate; now rewrite Hnf.
Qed.

(** What the first loop of [_cleanup_token] leaves behind. *)
Lemma sweep_others_sound (host : Host) (c : AuthToken)
      (others : list AuthToken) :
  no_faults host ->
  forall w, exists w',
    sweep_others host c others w = (Ok tt, w') /\
    db w' = drop_rows (swept host c (ticks w) others) (db w) /\
    signals w' =
      signals w ++ map other_signal (swept host c (ticks w) others) /\
    ticks w' = ticks w + List.length (dated_others c others) /\
    muts w' = muts w + List.length (swept host c (ticks w) others).
Proof.
  intros Hnf; induction others as [|o rest IH]; intros w.
  - exists w; simpl; rewrite drop_rows_nil, app_nil_r, !Nat.add_0_r.
    now repeat split.
  - rewrite swept_cons, dated_others_cons.
    cbn [sweep_others]; unfold bind at 1.
    unfold other_digest, has_expiry, expired_at.
    destruct (negb (text_eqb (digest o) (digest c))); simpl.
    + destruct (expires o) as [e|]; simpl.
      * unfold bind at 1; unfold timezone_now at 1; cbn [fst snd].
        destruct (e <? clock host (ticks w))%Z.
        -- unfold bind at 1; rewrite delete_sound by assumption.
           unfold send at 1; cbn [db signals ticks muts].
           destruct (IH (mkWorld (drop_row o (db w))
                                 (signals w ++ [other_signal o])
                                 (S (ticks w)) (S (muts w))))
             as (w' & Hrun & Hdb & Hsig & Htk & Hmu).
           exists w'; cbn [db signals ticks muts] in *.
           unfold other_signal in Hrun at 1.
           rewrite Hrun, Hdb, Hsig, Htk, Hmu, drop_rows_cons, <- app_assoc.
           simpl; repeat split; lia.
        -- unfold ret at 1.
           destruct (IH (mkWorld (db w) (signals w) (S (ticks w)) (muts w)))
             as (w' & Hrun & Hdb & Hsig & Htk & Hmu).
           exists w'; cbn [db signals ticks muts] in *.
           rewrite Hrun, Hdb, Hsig, Htk, Hmu; simpl; repeat split; lia.
      * apply IH.
    + apply IH.
Qed.

Lemma dated_others_In (c o : AuthToken) (others : list AuthToken) :
  In o (dated_others c others) <->
  In o others /\ digest o <> digest c /\ expires o <> None.
Proof.
  unfold dated_others, other_digest, has_expiry.
  rewrite filter_In, andb_true_iff, negb_true_iff, text_eqb_neq.
  destruct (expires o); intuition congruence.
Qed.

Lemma swept_In (host : Host) (c o : AuthToken) (others : list AuthToken) :
  forall n,
    In o (swept host c n others) <->
    exists j, nth_error (dated_others c others) j = Some o /\
              expired_at (clock host (n + j)) o = true.
Proof.
  induction others as [|x rest IH]; intros n.
  - simpl; split; [tauto|]. intros ([|j] & Hj & _); discriminate.
  - rewrite swept_cons, dated_others_cons.
    destruct (other_digest c x && has_expiry x).
    + destruct (expired_at (clock host n) x) eqn:Hx; simpl; rewrite IH; split.
      * intros [->|(j & Hj & He)].
        -- exists 0; simpl; now rewrite Nat.add_0_r.
        -- exists (S j); simpl; now rewrite Nat.add_succ_r.
      * intros ([|j] & Hj & He); simpl in Hj.
        -- left; congruence.
        -- right; exists j; now rewrite Nat.add_succ_r in He.
      * intros (j & Hj & He); exists (S j); simpl.
        now rewrite Nat.add_succ_r.
      * intros ([|j] & Hj & He); simpl in Hj.
        -- rewrite Nat.add_0_r in He; congruence.
        -- exists j; now rewrite Nat.add_succ_r in He.
    + apply IH.
Qed.

Lemma swept_incl (host : Host) (c o : AuthToken) (n : nat)
      (others : list AuthToken) :
  In o (swept host c n others) -> In o (dated_others c others).
Proof.
  rewrite swept_In; intros (j & Hj & _); eapply nth_error_In; eassumption.
Qed.

(** While the clock stands still the sweep is a plain filter. *)
Lemma swept_still (host : Host) (c : AuthToken) (t : Z)
      (others : list AuthToken) :
  forall n,
    (forall j, j < List.length (dated_others c others) ->
               clock host (n + j) = t) ->
    swept host c n others =
    filter (fun o => other_digest c o && expired_at t o) others.
Proof.
  induction others as [|x rest IH]; intros n Hstill; [reflexivity|].
  rewrite swept_cons; rewrite dated_others_cons in Hstill; simpl filter.
  destruct (other_digest c x); simpl andb in *.
  - destruct (has_expiry x) eqn:Hex; simpl in Hstill.
    + assert (clock host n = t) as ->
          by (rewrite <- (Hstill 0) by lia; f_equal; lia).
      rewrite IH; [reflexivity|].
      intros j Hj; rewrite <- (Hstill (S j)) by lia; f_equal; lia.
    + assert (expired_at t x = false) as ->
          by (unfold expired_at, has_expiry in *;
              destruct (expires x); congruence).
      now apply IH.
  - now apply IH.
Qed.

Lemma unique_key (A B : Type) (f : A -> B) (l : list A) (a b : A) :
  NoDup (map f l) -> In a l -> In b l -> f a = f b -> a = b.
Proof.
  induction l as [|x l IH]; simpl; [tauto|].
  intros Hnd Ha Hb Hab; inversion Hnd as [|? ? Hx Hl]; subst.
  destruct Ha as [->|Ha], Hb as [->|Hb]; auto.
  - exfalso; apply Hx; rewrite Hab; now apply in_map.
  - exfalso; apply Hx; rewrite <- Hab; now apply in_map.
Qed.

Lemma drop_rows_In (gone rows : list AuthToken) (r : AuthToken) :
  In r (drop_rows gone rows) <->
  In r rows /\ forall t, In t gone -> digest r <> digest t.
Proof.
  unfold drop_rows; rewrite filter_In, negb_true_iff.
  split; intros [Hr Hg]; split; auto.
  - intros t Ht Heq.
    assert (existsb (fun t => same_row t r) gone = true) as E; [|congruence].
    apply existsb_exists; exists t; split; [assumption|].
    now apply text_eqb_eq.
  - destruct (existsb _ gone) eqn:E; [|reflexivity].
    apply existsb_exists in E as (t & Ht & Heq).
    apply text_eqb_eq in Heq; now destruct (Hg t Ht).
Qed.

(** ** The cleanup pass *)

(** What [_cleanup_token] returns and leaves behind on a sound database. *)
Lemma cleanup_token_sound (host : Host) (c : AuthToken) (w : World) :
  no_faults host ->
  let others := filter (owned_by (user c)) (db w) in
  let gone := swept host c (ticks w) others in
  let own :=
    expired_at (clock host (ticks w + List.length (dated_others c others))) c in
  exists w',
    _cleanup_token host c w = (Ok own, w') /\
    db w' = drop_rows (gone ++ if own then [c] else []) (db w) /\
    signals w' =
      signals w ++ map other_signal gone ++
      (if own then [auth_signal c] else []) /\
    ticks w' = ticks w + List.length (dated_others c others) +
               (if has_expiry c then 1 else 0) /\
    muts w' = muts w + List.length gone + (if own then 1 else 0).
Proof.
  intros Hnf others gone own.
  unfold _cleanup_token, bind at 1, auth_token_set_all at 1.
  fold others; unfold bind at 1.
  destruct (sweep_others_sound host c others Hnf w)
    as (w1 & Hrun & Hdb & Hsig & Htk & Hmu).
  fold gone in Hdb, Hsig, Hmu; rewrite Hrun.
  subst own; unfold expired_at, has_expiry.
  destruct (expires c) as [e|].
  - unfold bind at 1, timezone_now at 1; rewrite Htk.
    destruct (e <? _)%Z.
    + unfold bind at 1; rewrite delete_sound by assumption.
      unfold bind, send, ret; cbn [db signals ticks muts].
      eexists; split; [reflexivity|]; cbn [db signals ticks muts].
      rewrite Hdb, Hsig, Hmu, drop_rows_snoc, <- app_assoc.
      repeat split; lia.
    + unfold ret; eexists; split; [reflexivity|]; cbn [db signals ticks muts].
      rewrite Hdb, Hsig, Hmu, !app_nil_r; repeat split; lia.
  - unfold ret; exists w1; rewrite Hdb, Hsig, Htk, Hmu, !app_nil_r.
    repeat split; lia.
Qed.

(** C3. On a sound database [_cleanup_token] run on candidate [c]:
    - returns whether [c] itself has an expiry that lies before the clock,
      read once more after the sweep ([own]);
    - removes from the table the rows [gone] and, exactly when it returns
      true, the candidate's row; nothing else changes, the order of the
      remaining rows included;
    - sends one [token_expired] with source "other_token" for every row of
      [gone], in order, and then, exactly when it returns true, one with
      source "auth_token".
    [gone] are the rows of the candidate's owner with another digest and an
    expiry that lies before the clock as the loop reads it for that row (the
    j-th row that has both is compared with reading number j of the pass).
    When every reading of the pass shows the same instant [t], [gone] is the
    filter of the owner's rows by "another digest, and expired at [t]" and
    the result is "expired at [t]".  With unique digests the table afterwards
    holds exactly the rows that are neither in [gone] nor the candidate's
    deleted row. *)
Theorem cleanup_token_exact (host : Host) (c : AuthToken) (w : World) :
  no_faults host ->
  let others := filter (owned_by (user c)) (db w) in
  let dated := dated_others c others in
  let gone := swept host c (ticks w) others in
  let own := expired_at (clock host (ticks w + List.length dated)) c in
  exists w',
    _cleanup_token host c w = (Ok own, w') /\
    db w' = drop_rows (gone ++ if own then [c] else []) (db w) /\
    signals w' =
      signals w ++ map other_signal gone ++
      (if own then [auth_signal c] else []) /\
    (forall o, In o dated <->
               In o (db w) /\ user_id (user o) = user_id (user c) /\
               digest o <> digest c /\ expires o <> None) /\
    (forall o, In o gone <->
               exists j, nth_error dated j = Some o /\
                         expired_at (clock host (ticks w + j)) o = true) /\
    (forall t, (forall j, j <= List.length dated ->
                          clock host (ticks w + j) = t) ->
               gone = filter (fun o => other_digest c o && expired_at t o)
                             others /\
               own = expired_at t c) /\
    (unique_digests (db w) ->
     forall r, In r (db w') <->
               In r (db w) /\ ~ In r gone /\
               ~ (own = true /\ digest r = digest c)).
Proof.
  intros Hnf others dated gone own.
  destruct (cleanup_token_sound host c w Hnf)
    as (w' & Hrun & Hdb & Hsig & _ & _).
  fold others gone dated own in Hrun, Hdb, Hsig.
  assert (forall o, In o dated <->
                    In o (db w) /\ user_id (user o) = user_id (user c) /\
                    digest o <> digest c /\ expires o <> None) as Hdated.
  { intros o; unfold dated; rewrite dated_others_In; unfold others.
    rewrite filter_In; unfold owned_by; rewrite Nat.eqb_eq; tauto. }
  exists w'.
  split; [exact Hrun|]. split; [exact Hdb|]. split; [exact Hsig|].
  split; [exact Hdated|]. split; [intros o; apply swept_In|]. split.
  - intros t Ht; split.
    + apply swept_still; intros j Hj; apply Ht; unfold dated; lia.
    + subst own; now rewrite (Ht (List.length dated)).
  - intros Huniq r; rewrite Hdb, drop_rows_In; split.
    + intros [Hr Hg]; repeat split; [assumption| |].
      * intros Hin; apply (Hg r); [apply in_or_app; now left | reflexivity].
      * intros [Hown Heq]; apply (Hg c); [|assumption].
        apply in_or_app; right; rewrite Hown; now left.
    + intros (Hr & Hng & Hnc); split; [assumption|].
      intros t Ht Heq; apply in_app_or in Ht as [Ht|Ht].
      * apply Hng.
        assert (In t (db w)) as Htw
            by (apply swept_incl in Ht; now apply Hdated in Ht).
        now rewrite (unique_key _ _ digest (db w) r t Huniq Hr Htw Heq).
      * destruct own; [|contradiction].
        destruct Ht as [<-|[]]; now apply Hnc.
Qed.

(** ** The candidate loop, one iteration at a time *)

Section Loop.

Variable cfg : Settings.
Variable host : Host.
Variable token : text.

Lemma try_skip (c : AuthToken) (rest : list AuthToken) (w w1 : World) :
  _cleanup_token host c w = (Ok true, w1) ->
  try_candidates cfg host token (c :: rest) w =
  try_candidates cfg host token rest w1.
Proof. intros Hc; cbn [try_candidates]; unfold bind; now rewrite Hc. Qed.

Lemma try_cleanup_raises (c : AuthToken) (rest : list AuthToken)
      (w w1 : World) (e : exn) :
  _cleanup_token host c w = (Raise e, w1) ->
  try_candidates cfg host token (c :: rest) w = (Raise e, w1).
Proof. intros Hc; cbn [try_candidates]; unfold bind; now rewrite Hc. Qed.

Lemma try_hash_raises (c : AuthToken) (rest : list AuthToken) (w w1 : World) :
  _cleanup_token host c w = (Ok false, w1) ->
  hash_token host token (salt c) = inl TypeError \/
  hash_token host token (salt c) = inl BinasciiError ->
  try_candidates cfg host token (c :: rest) w =
  (Raise (AuthenticationFailed msg_invalid_token), w1).
Proof.
  intros Hc Hh; cbn [try_candidates]; unfold bind; rewrite Hc.
  now destruct Hh as [-> | ->].
Qed.

Lemma try_mismatch (c : AuthToken) (rest : list AuthToken) (w w1 : World)
      (d : text) :
  _cleanup_token host c w = (Ok false, w1) ->
  hash_token host token (salt c) = inr d ->
  compare_digest d (digest c) = false ->
  try_candidates cfg host token (c :: rest) w =
  try_candidates cfg host token rest w1.
Proof.
  intros Hc Hh Hd; cbn [try_candidates]; unfold bind.
  now rewrite Hc, Hh, Hd.
Qed.

Lemma try_match (c : AuthToken) (rest : list AuthToken) (w w1 : World)
      (d : text) :
  _cleanup_token host c w = (Ok false, w1) ->
  hash_token host token (salt c) = inr d ->
  compare_digest d (digest c) = true ->
  try_candidates cfg host token (c :: rest) w =
  if AUTO_REFRESH cfg
  then match renew_token cfg host c w1 with
       | (c', (Ok _, w')) => validate_user c' w'
       | (_, (Raise e, w')) => (Raise e, w')
       end
  else validate_user c w1.
Proof.
  intros Hc Hh Hd; cbn [try_candidates]; unfold bind.
  rewrite Hc, Hh, Hd; now destruct (AUTO_REFRESH cfg).
Qed.

Lemma reaches_try (cands l : list AuthToken) (w w' : World) :
  reaches host token cands w l w' ->
  try_candidates cfg host token cands w = try_candidates cfg host token l w'.
Proof.
  induction 1 as [| c rest w w1 l w' Hc _ IH | c rest w w1 d l w' Hc Hh Hd _ IH].
  - reflexivity.
  - now rewrite (try_skip c rest w w1 Hc).
  - now rewrite (try_mismatch c rest w w1 d Hc Hh Hd).
Qed.

End Loop.

Lemma authenticate_credentials_loop (cfg : Settings) (host : Host)
      (tok : string) (token : text) (w : World) :
  decode_utf8 host tok = Some token ->
  authenticate_credentials cfg host tok w =
  try_candidates cfg host token (candidates cfg token w) w.
Proof.
  intros Hd; unfold authenticate_credentials; now rewrite Hd.
Qed.

(** ** Renewal *)

Lemma renew_token_instance (cfg : Settings) (host : Host) (c : AuthToken)
      (w : World) :
  fst (renew_token cfg host c w) =
  set_expires c (Some (clock host (ticks w) + TOKEN_TTL cfg)%Z).
Proof.
  unfold renew_token, timezone_now.
  destruct (expires c); [destruct (_ <? _)%Z|]; reflexivity.
Qed.

Lemma renew_token_unset (cfg : Settings) (host : Host) (c : AuthToken)
      (w : World) :
  expires c = None ->
  snd (renew_token cfg host c w) =
  (Raise TypeError, mkWorld (db w) (signals w) (S (ticks w)) (muts w)).
Proof. intros Hc; unfold renew_token, timezone_now; now rewrite Hc. Qed.

Lemma renew_token_fresh (cfg : Settings) (host : Host) (c : AuthToken)
      (w : World) (e : Z) :
  expires c = Some e ->
  ~ (MIN_REFRESH_INTERVAL cfg * 1000000 <
     clock host (ticks w) + TOKEN_TTL cfg - e)%Z ->
  snd (renew_token cfg host c w) =
  (Ok tt, mkWorld (db w) (signals w) (S (ticks w)) (muts w)).
Proof.
  intros Hc Hlt; unfold renew_token, timezone_now; rewrite Hc.
  apply Z.ltb_nlt in Hlt; now rewrite Hlt.
Qed.

Lemma renew_token_written (cfg : Settings) (host : Host) (c : AuthToken)
      (w : World) (e : Z) :
  expires c = Some e ->
  (MIN_REFRESH_INTERVAL cfg * 1000000 <
   clock host (ticks w) + TOKEN_TTL cfg - e)%Z ->
  store_fault host (muts w) = false ->
  existsb (same_row c) (db w) = true ->
  snd (renew_token cfg host c w) =
  (Ok tt,
   mkWorld (write_expires
              (set_expires c (Some (clock host (ticks w) + TOKEN_TTL cfg)%Z))
              (db w))
           (signals w) (S (ticks w)) (S (muts w))).
Proof.
  intros Hc Hlt Hnf Hrow; unfold renew_token, timezone_now; rewrite Hc.
  apply Z.ltb_lt in Hlt; rewrite Hlt.
  unfold save_expires, mutate; cbn [db signals ticks muts snd].
  unfold same_row in *; cbn [digest set_expires].
  now rewrite Hnf, Hrow.
Qed.

Lemma renew_token_refused (cfg : Settings) (host : Host) (c : AuthToken)
      (w : World) (e : Z) :
  expires c = Some e ->
  (MIN_REFRESH_INTERVAL cfg * 1000000 <
   clock host (ticks w) + TOKEN_TTL cfg - e)%Z ->
  store_fault host (muts w) = true ->
  snd (renew_token cfg host c w) =
  (Raise DatabaseError,
   mkWorld (db w) (signals w) (S (ticks w)) (S (muts w))).
Proof.
  intros Hc Hlt Hf; unfold renew_token, timezone_now; rewrite Hc.
  apply Z.ltb_lt in Hlt; rewrite Hlt.
  unfold save_expires, mutate; cbn [db signals ticks muts snd].
  now rewrite Hf.
Qed.

Lemma mutate_counts (host : Host)
      (f : list AuthToken -> Result (list AuthToken)) (w : World) :
  muts (snd (mutate host f w)) = S (muts w).
Proof.
  unfold mutate; destruct (store_fault host (muts w)); [reflexivity|].
  now destruct (f (db w)).
Qed.

(** C4. [renew_token] leaves the instance with [expires] equal to the
    reading of the clock plus TOKEN_TTL, whatever else happens.  When the
    instance had an expiry [e], it issues its UPDATE exactly when the new
    expiry exceeds [e] by more than MIN_REFRESH_INTERVAL seconds; below the
    threshold the call succeeds and the table is untouched; above it, on a
    database that accepts the write for a row that is still there, the table
    afterwards is the table before in which every row with the digest of the
    instance has the new expiry in its [expires], all other fields and all
    other rows being as they were.  When the instance had no expiry, the
    subtraction raises and nothing is written. *)
Theorem renew_token_throttled (cfg : Settings) (host : Host) (c : AuthToken)
        (w : World) :
  let new_expiry := (clock host (ticks w) + TOKEN_TTL cfg)%Z in
  let over e := (MIN_REFRESH_INTERVAL cfg * 1000000 < new_expiry - e)%Z in
  let c' := fst (renew_token cfg host c w) in
  let r := fst (snd (renew_token cfg host c w)) in
  let w' := snd (snd (renew_token cfg host c w)) in
  c' = set_expires c (Some new_expiry) /\
  expires c' = Some new_expiry /\
  (forall e, expires c = Some e ->
    (muts w' = S (muts w) <-> over e) /\
    (~ over e -> r = Ok tt /\ db w' = db w /\ muts w' = muts w) /\
    (over e -> store_fault host (muts w) = false ->
     existsb (same_row c) (db w) = true ->
     r = Ok tt /\
     db w' =
     map (fun row =>
            if text_eqb (digest row) (digest c)
            then mkAuthToken (digest row) (token_key row) (salt row)
                             (user row) (Some new_expiry)
            else row)
         (db w))) /\
  (expires c = None ->
   r = Raise TypeError /\ db w' = db w /\ muts w' = muts w).
Proof.
  intros new_expiry over c' r w'.
  assert (c' = set_expires c (Some new_expiry)) as Hc'
      by apply renew_token_instance.
  split; [exact Hc'|]. split; [now rewrite Hc'|].
  split;
    [|intros He; subst r w'; rewrite (renew_token_unset cfg host c w He);
      repeat split].
  intros e He; subst r w'.
  destruct (Z_lt_dec (MIN_REFRESH_INTERVAL cfg * 1000000) (new_expiry - e))
    as [Hov|Hov].
  - repeat split; try tauto.
    + unfold renew_token, timezone_now; rewrite He.
      apply Z.ltb_lt in Hov; fold new_expiry; rewrite Hov.
      cbn [snd]; unfold save_expires; now rewrite mutate_counts.
    + now rewrite (renew_token_written cfg host c w e He Hov).
    + now rewrite (renew_token_written cfg host c w e He Hov) by assumption.
  - rewrite (renew_token_fresh cfg host c w e He Hov); cbn [fst snd muts db].
    repeat split; try tauto; try lia.
Qed.

(** ** The call *)

(** C9. When the loop has come to a candidate with no expiry whose digest
    matches, the call raises [TypeError] out of [renew_token] if AUTO_REFRESH
    is on, and goes on to the check of the owner if it is off. *)
Theorem renewal_of_unset_expiry_raises (cfg : Settings) (host : Host)
        (tok : string) (token d : text) (c : AuthToken)
        (rest : list AuthToken) (w w0 w1 : World) :
  decode_utf8 host tok = Some token ->
  reaches host token (candidates cfg token w) w (c :: rest) w0 ->
  _cleanup_token host c w0 = (Ok false, w1) ->
  hash_token host token (salt c) = inr d ->
  compare_digest d (digest c) = true ->
  expires c = None ->
  (AUTO_REFRESH cfg = true ->
   authenticate_credentials cfg host tok w =
   (Raise TypeError, mkWorld (db w1) (signals w1) (S (ticks w1)) (muts w1))) /\
  (AUTO_REFRESH cfg = false -> is_active (user c) = true ->
   authenticate_credentials cfg host tok w = (Ok (user c, c), w1)).
Proof.
  intros Hd Hr Hc Hh Hm He.
  rewrite (authenticate_credentials_loop cfg host tok token w Hd).
  rewrite (reaches_try cfg host token _ _ _ _ Hr),
    (try_match cfg host token c rest w0 w1 d Hc Hh Hm).
  split; intros ->.
  - pose proof (renew_token_unset cfg host c w1 He) as Hrn.
    destruct (renew_token cfg host c w1) as [c' [r w2]]; cbn [snd] in Hrn.
    now inversion Hrn.
  - intros Ha; unfold validate_user; now rewrite Ha.
Qed.


(** ** A database that refuses *)

Lemma delete_refused (host : Host) (t : AuthToken) (w : World) :
  store_fault host (muts w) = true ->
  delete host t w =
  (Raise DatabaseError, mkWorld (db w) (signals w) (ticks w) (S (muts w))).
Proof. intros Hf; unfold delete, mutate; now rewrite Hf. Qed.

(** ** Calls that find no match *)

Lemma expired_at_later (t t' : Z) (c : AuthToken) :
  (t <= t')%Z -> expired_at t c = true -> expired_at t' c = true.
Proof.
  unfold expired_at; destruct (expires c) as [e|]; [|discriminate].
  rewrite !Z.ltb_lt; lia.
Qed.

Lemma drop_rows_subset (gone rows : list AuthToken) (r : AuthToken) :
  In r (drop_rows gone rows) -> In r rows.
Proof. now rewrite drop_rows_In. Qed.

(** Every candidate has a digest other than the computed one. *)
Lemma try_all_miss (cfg : Settings) (host : Host) (token : text) :
  no_faults host ->
  forall l w,
    (forall c, In c l ->
               exists d, hash_token host token (salt c) = inr d /\
                         compare_digest d (digest c) = false) ->
    exists w',
      try_candidates cfg host token l w =
      (Raise (AuthenticationFailed msg_invalid_token), w').
Proof.
  intros Hnf; induction l as [|c rest IH]; intros w Hmiss.
  - exists w; reflexivity.
  - destruct (cleanup_token_sound host c w Hnf) as (w1 & Hrun & _).
    destruct (IH w1) as (w' & Hrest);
      [intros c' Hc'; apply Hmiss; now right|].
    exists w'; rewrite <- Hrest.
    destruct (expired_at _ c).
    + now apply try_skip.
    + destruct (Hmiss c (or_introl eq_refl)) as (d & Hh & Hd).
      now apply try_mismatch with d.
Qed.

(** Every candidate is expired at reading [n0] or has another digest; the
    clock does not go back.  The expired ones are deleted and signalled. *)
Lemma try_stale_or_miss (cfg : Settings) (host : Host) (token : text)
      (n0 : nat) :
  no_faults host -> monotone_clock host ->
  forall l w,
    n0 <= ticks w ->
    (forall c, In c l ->
               expired_at (clock host n0) c = true \/
               exists d, hash_token host token (salt c) = inr d /\
                         compare_digest d (digest c) = false) ->
    exists w' more,
      try_candidates cfg host token l w =
      (Raise (AuthenticationFailed msg_invalid_token), w') /\
      (forall r, In r (db w') -> In r (db w)) /\
      signals w' = signals w ++ more /\
      (forall c, In c l -> expired_at (clock host n0) c = true ->
                 In (auth_signal c) more /\
                 ~ In (digest c) (map digest (db w'))).
Proof.
  intros Hnf Hmono; induction l as [|c rest IH]; intros w Hn0 Hall.
  - exists w, []; rewrite app_nil_r; repeat split; auto; contradiction.
  - destruct (cleanup_token_sound host c w Hnf)
      as (w1 & Hrun & Hdb & Hsig & Htk & _).
    set (others := filter (owned_by (user c)) (db w)) in *.
    set (gone := swept host c (ticks w) others) in *.
    set (k := ticks w + List.length (dated_others c others)) in *.
    destruct (IH w1) as (w' & more & Hrest & Hsub & Hsig' & Hgone);
      [lia | intros c' Hc'; apply Hall; now right |].
    assert (forall r, In r (db w') -> In r (db w)) as Hsubw.
    { intros r Hr; apply Hsub in Hr; rewrite Hdb in Hr.
      now apply drop_rows_subset in Hr. }
    destruct (expired_at (clock host k) c) eqn:Hown.
    + exists w', (map other_signal gone ++ [auth_signal c] ++ more).
      rewrite (try_skip cfg host token c rest w w1 Hrun).
      split; [exact Hrest|]. split; [exact Hsubw|]. split.
      * rewrite Hsig', Hsig, <- !app_assoc; reflexivity.
      * intros c' [<-|Hc'] Hexp.
        -- split; [apply in_or_app; right; now left|].
           rewrite in_map_iff; intros (r & Hrd & Hr).
           apply Hsub in Hr; rewrite Hdb, drop_rows_In in Hr.
           destruct Hr as [_ Hr]; apply (Hr c); [|assumption].
           apply in_or_app; right; now left.
        -- destruct (Hgone c' Hc' Hexp) as [Hin Hnot]; split; [|exact Hnot].
           apply in_or_app; right; apply in_or_app; now right.
    + destruct (Hall c (or_introl eq_refl)) as [Hexp|(d & Hh & Hd)].
      * apply (expired_at_later _ (clock host k)) in Hexp;
          [congruence | apply Hmono; unfold k; lia].
      * exists w', (map other_signal gone ++ more).
        rewrite (try_mismatch cfg host token c rest w w1 d Hrun Hh Hd).
        split; [exact Hrest|]. split; [exact Hsubw|]. split.
        -- rewrite Hsig', Hsig, app_nil_r, <- !app_assoc; reflexivity.
        -- intros c' [<-|Hc'] Hexp.
           ++ apply (expired_at_later _ (clock host k)) in Hexp;
                [congruence | apply Hmono; unfold k; lia].
           ++ destruct (Hgone c' Hc' Hexp) as [Hin Hnot]; split; [|exact Hnot].
              apply in_or_app; now right.
Qed.

(** ** Calls that succeed *)

Lemma sweep_others_ticks (host : Host) (c : AuthToken)
      (others : list AuthToken) :
  forall w r w', sweep_others host c others w = (r, w') -> ticks w <= ticks w'.
Proof.
  induction others as [|o rest IH]; intros w r w' Hrun.
  - inversion Hrun; lia.
  - cbn [sweep_others] in Hrun; unfold bind at 1 in Hrun.
    destruct (negb (text_eqb (digest o) (digest c)));
      [|now apply IH in Hrun].
    destruct (expires o) as [e|]; [|now apply IH in Hrun].
    unfold bind at 1, timezone_now at 1 in Hrun.
    destruct (e <? clock host (ticks w))%Z.
    + unfold bind at 1, delete, mutate in Hrun; cbn [db signals ticks muts] in Hrun.
      destruct (store_fault host (muts w)).
      * inversion Hrun; cbn; lia.
      * unfold send in Hrun; cbn [db signals ticks muts] in Hrun.
        apply IH in Hrun; cbn in Hrun; lia.
    + unfold ret at 1 in Hrun; apply IH in Hrun; cbn in Hrun; lia.
Qed.

(** A candidate that the cleanup pass keeps was held against some reading
    of the clock, taken during the pass, and was not expired then. *)
Lemma cleanup_token_keeps (host : Host) (c : AuthToken) (w w' : World)
      (b : bool) :
  _cleanup_token host c w = (Ok b, w') ->
  ticks w <= ticks w' /\
  (b = false ->
   exists k, ticks w <= k /\ expired_at (clock host k) c = false).
Proof.
  unfold _cleanup_token, bind at 1, auth_token_set_all at 1.
  unfold bind at 1.
  destruct (sweep_others host c _ w) as [[[]|e] ws] eqn:Hsw;
    [|discriminate].
  apply sweep_others_ticks in Hsw.
  unfold expired_at; destruct (expires c) as [e|].
  - unfold bind at 1, timezone_now at 1.
    destruct (e <? clock host (ticks ws))%Z eqn:Hlt.
    + unfold bind at 1, delete, mutate; cbn [db signals ticks muts].
      destruct (store_fault host (muts ws)); [discriminate|].
      unfold bind, send, ret; cbn [db signals ticks muts].
      intros Hrun; inversion Hrun; subst; cbn; split; [lia|discriminate].
    + unfold ret; intros Hrun; inversion Hrun; subst; cbn; split; [lia|].
      intros _; exists (ticks ws); split; [lia|assumption].
  - unfold ret; intros Hrun; inversion Hrun; subst; split; [lia|].
    intros _; exists (ticks w'); split; [lia|reflexivity].
Qed.

(** A call that succeeds returns one of its candidates, possibly renewed:
    one whose digest is the computed one, whose owner is active, and which
    was not expired when the cleanup pass looked. *)
Lemma try_candidates_accepts (cfg : Settings) (host : Host) (token : text) :
  forall l w u t w',
    try_candidates cfg host token l w = (Ok (u, t), w') ->
    exists c,
      In c l /\ digest t = digest c /\ u = user c /\
      is_active (user c) = true /\
      hash_token host token (salt c) = inr (digest c) /\
      exists k, ticks w <= k /\ expired_at (clock host k) c = false.
Proof.
  induction l as [|c rest IH]; intros w u t w' Hrun; [discriminate|].
  cbn [try_candidates] in Hrun; unfold bind at 1 in Hrun.
  destruct (_cleanup_token host c w) as [[b|e] w1] eqn:Hc; [|discriminate].
  destruct (cleanup_token_keeps host c w w1 b Hc) as [Htk Hkept].
  assert (forall w2, try_candidates cfg host token rest w1 = (Ok (u, t), w2) ->
                     exists c0,
                       In c0 (c :: rest) /\ digest t = digest c0 /\
                       u = user c0 /\ is_active (user c0) = true /\
                       hash_token host token (salt c0) = inr (digest c0) /\
                       exists k, ticks w <= k /\
                                 expired_at (clock host k) c0 = false) as Hnext.
  { intros w2 Hrest; apply IH in Hrest.
    destruct Hrest as (c0 & Hin & Hd & Hu & Ha & Hh & k & Hk & Hex).
    exists c0; repeat split; auto; [now right|].
    exists k; split; [lia|assumption]. }
  destruct b; [now apply Hnext in Hrun|].
  destruct (hash_token host token (salt c)) as [x|d] eqn:Hh.
  - destruct x; discriminate.
  - destruct (compare_digest d (digest c)) eqn:Hd;
      [|now apply Hnext in Hrun].
    apply text_eqb_eq in Hd; subst d.
    destruct (Hkept eq_refl) as (k & Hk & Hex).
    assert (forall c1 w2, digest c1 = digest c -> user c1 = user c ->
                          validate_user c1 w2 = (Ok (u, t), w') ->
                          digest t = digest c /\ u = user c /\
                          is_active (user c) = true) as Hval.
    { intros c1 w2 Hd1 Hu1; unfold validate_user; rewrite Hu1.
      destruct (is_active (user c)); [|discriminate].
      unfold ret; intros Hv; inversion Hv; subst; auto. }
    assert (digest t = digest c /\ u = user c /\ is_active (user c) = true)
      as (Hdt & Hu & Ha).
    { destruct (AUTO_REFRESH cfg).
      - pose proof (renew_token_instance cfg host c w1) as Hi.
        destruct (renew_token cfg host c w1) as [c' [[[]|e] w2]];
          [|discriminate].
        cbn [fst] in Hi; subst c'.
        exact (Hval (set_expires c _) w2 eq_refl eq_refl Hrun).
      - exact (Hval c w1 eq_refl eq_refl Hrun). }
    exists c; split; [now left|].
    do 4 (split; [assumption|]).
    exists k; split; assumption.
Qed.

Lemma candidates_In (cfg : Settings) (token : text) (w : World)
      (c : AuthToken) :
  In c (candidates cfg token w) <->
  In c (db w) /\ token_key c = firstn (TOKEN_KEY_LENGTH cfg) token.
Proof. unfold candidates; now rewrite filter_In, text_eqb_eq. Qed.


(** C2, as the code has it.  A call with no candidate, and a call all of
    whose candidates have a digest other than the computed one, raise
    AuthenticationFailed("Invalid token.").  A call that comes to a candidate
    whose digest matches and whose owner is inactive raises the same class of
    exception with another message, "User inactive or deleted.". *)
Theorem failure_values (cfg : Settings) (host : Host) (tok : string)
        (token : text) (w : World) :
  decode_utf8 host tok = Some token ->
  (candidates cfg token w = [] ->
   authenticate_credentials cfg host tok w =
   (Raise (AuthenticationFailed msg_invalid_token), w)) /\
  (no_faults host ->
   (forall c, In c (candidates cfg token w) ->
              exists d, hash_token host token (salt c) = inr d /\
                        compare_digest d (digest c) = false) ->
   exists w',
     authenticate_credentials cfg host tok w =
     (Raise (AuthenticationFailed msg_invalid_token), w')) /\
  (forall c rest w0 w1 d,
      reaches host token (candidates cfg token w) w (c :: rest) w0 ->
      _cleanup_token host c w0 = (Ok false, w1) ->
      hash_token host token (salt c) = inr d ->
      compare_digest d (digest c) = true ->
      is_active (user c) = false ->
      (AUTO_REFRESH cfg = false ->
       authenticate_credentials cfg host tok w =
       (Raise (AuthenticationFailed msg_inactive), w1)) /\
      (AUTO_REFRESH cfg = true ->
       forall c' w2,
         renew_token cfg host c w1 = (c', (Ok tt, w2)) ->
         authenticate_credentials cfg host tok w =
         (Raise (AuthenticationFailed msg_inactive), w2))) /\
  AuthenticationFailed msg_invalid_token <> AuthenticationFailed msg_inactive.
Proof.
  intros Hd.
  rewrite (authenticate_credentials_loop cfg host tok token w Hd).
  split; [|split; [|split]].
  - now intros ->.
  - intros Hnf Hmiss; now apply try_all_miss.
  - intros c rest w0 w1 d Hr Hc Hh Hm Hia.
    rewrite (reaches_try cfg host token _ _ _ _ Hr),
      (try_match cfg host token c rest w0 w1 d Hc Hh Hm).
    split; intros ->.
    + unfold validate_user; now rewrite Hia.
    + intros c' w2 Hrn; rewrite Hrn.
      pose proof (renew_token_instance cfg host c w1) as Hi.
      rewrite Hrn in Hi; cbn [fst] in Hi; subst c'.
      unfold validate_user; cbn [user set_expires]; now rewrite Hia.
  - discriminate.
Qed.

(** ** The header *)

Lemma split_from_words (s cur : string) (x : string) :
  In x (split_from cur s) -> x <> EmptyString.
Proof.
  revert cur; induction s as [|ch s IH]; intros cur; simpl.
  - destruct cur; simpl; [tauto|]. intros [<-|[]]; discriminate.
  - destruct (is_space ch).
    + destruct cur; simpl; [apply IH|].
      intros [<-|Hx]; [discriminate | now apply IH in Hx].
    + apply IH.
Qed.

(** An empty header, or one of white space only, has no words. *)
Lemma split_blank (s : string) :
  forallb is_space (list_ascii_of_string s) = true -> split s = [].
Proof.
  unfold split; induction s as [|ch s IH]; simpl; [reflexivity|].
  rewrite andb_true_iff; intros [-> Hs]; now apply IH.
Qed.

Lemma space_free_app (a b : string) :
  space_free a -> space_free b -> space_free (a ++ b).
Proof.
  unfold space_free; induction a as [|ch a IH]; simpl; [tauto|].
  rewrite !andb_true_iff; intros [Hc Ha] Hb; split; auto.
Qed.

(** Every word of the header is free of white space. *)
Lemma split_from_space_free (s cur x : string) :
  space_free cur -> In x (split_from cur s) -> space_free x.
Proof.
  revert cur; induction s as [|ch s IH]; intros cur Hcur; simpl.
  - destruct cur; simpl; [tauto|]. now intros [<-|[]].
  - destruct (is_space ch) eqn:Hch.
    + destruct cur; simpl.
      * now apply IH.
      * intros [<-|Hx]; [assumption|]. now apply (IH EmptyString).
    + apply IH, space_free_app; [assumption|].
      unfold space_free; simpl; now rewrite Hch.
Qed.

Lemma append_empty_r (s : string) : (s ++ EmptyString)%string = s.
Proof. induction s as [|ch s IH]; simpl; [reflexivity|now rewrite IH]. Qed.

Lemma append_assoc (a b c : string) :
  ((a ++ b) ++ c)%string = (a ++ (b ++ c))%string.
Proof. induction a as [|ch a IH]; simpl; [reflexivity|now rewrite IH]. Qed.

(** The words, one after the other, are the header without its white
    space. *)
Lemma split_from_concat (s cur : string) :
  String.concat EmptyString (split_from cur s) =
  (cur ++ without_spaces s)%string.
Proof.
  revert cur; induction s as [|ch s IH]; intros cur; simpl.
  - destruct cur; simpl; [reflexivity|]. now rewrite append_empty_r.
  - destruct (is_space ch).
    + destruct cur as [|c0 cur]; [apply IH|].
      cbn [is_empty]; specialize (IH EmptyString).
      remember (split_from EmptyString s) as ws eqn:Hws.
      destruct ws as [|x ws]; simpl in *.
      * now rewrite <- IH, append_empty_r.
      * now rewrite IH.
    + now rewrite IH, append_assoc.
Qed.

Lemma split_words (header x : string) :
  In x (split header) -> x <> EmptyString /\ space_free x.
Proof.
  intros Hx; split.
  - now apply (split_from_words header EmptyString).
  - now apply (split_from_space_free header EmptyString).
Qed.

Lemma split_concat (header : string) :
  String.concat EmptyString (split header) = without_spaces header.
Proof. apply split_from_concat. Qed.

(** Lowering touches the 26 capitals only. *)
Example lower_spellings :
  lower "Token" = "token" /\ lower "TOKEN" = "token" /\
  lower "tOkEn" = "token" /\ lower "Bearer" = "bearer" /\
  lower "T0ken[" = "t0ken[".
Proof. repeat split. Qed.


(** ** Worked cases *)

Lemma demo_host_sound : no_faults demo_host.
Proof. intros k; reflexivity. Defined.

Lemma demo_clock_monotone : monotone_clock demo_host.
Proof. intros i j Hij; cbv [demo_host clock]; lia. Defined.

(** The scenarios of the header. *)
Example header_basic (w : World) :
  authenticate (demo_cfg false) demo_host "Basic xyz" w = (Ok None, w).
Proof. reflexivity. Qed.

Example header_two_tokens (w : World) :
  authenticate (demo_cfg false) demo_host "Token a b" w =
  (Raise (AuthenticationFailed msg_spaces), w).
Proof. reflexivity. Qed.

Example header_scheme_only (w : World) :
  authenticate (demo_cfg false) demo_host "TOKEN " w =
  (Raise (AuthenticationFailed msg_no_credentials), w).
Proof. reflexivity. Qed.

(** A stored token with no expiry, presented with the right and with a wrong
    secret. *)
Example token_accepted :
  authenticate (demo_cfg false) demo_host "Token abc12345cafe"
               (world_of [row_plain]) =
  (Ok (Some (alice, row_plain)), world_of [row_plain]).
Proof. reflexivity. Qed.

Example token_wrong_secret :
  authenticate (demo_cfg false) demo_host "Token abc12345beef"
               (world_of [row_plain]) =
  (Raise (AuthenticationFailed msg_invalid_token), world_of [row_plain]).
Proof. reflexivity. Qed.

(** C3 at [sweep_world]: the candidate and one other row of alice are
    expired, a third row of alice and the row of bob stay. *)
Lemma cleanup_token_exact_witness :
  no_faults demo_host /\
  exists w',
    _cleanup_token demo_host row_stale sweep_world = (Ok true, w') /\
    db w' = [row_keep; row_far] /\
    signals w' = [other_signal row_old; auth_signal row_stale].
Proof.
  split; [exact demo_host_sound|].
  destruct (cleanup_token_exact demo_host row_stale sweep_world
                                demo_host_sound)
    as (w' & Hrun & Hdb & Hsig & _).
  exists w'; split; [exact Hrun|]; split; [exact Hdb | exact Hsig].
Defined.


(** C2 as the specification words it does not hold: an empty table and a row of another
    secret give one failure value, the row of an inactive owner another. *)
Lemma failure_value_tells_inactive_owner :
  fst (authenticate_credentials (demo_cfg false) demo_host tok_cafe
                                (world_of [])) =
  Raise (AuthenticationFailed "Invalid token.") /\
  fst (authenticate_credentials (demo_cfg false) demo_host tok_cafe
                                (world_of [row_keep])) =
  Raise (AuthenticationFailed "Invalid token.") /\
  fst (authenticate_credentials (demo_cfg false) demo_host tok_cafe
                                (world_of [row_bob])) =
  Raise (AuthenticationFailed "User inactive or deleted.") /\
  fst (authenticate_credentials (demo_cfg false) demo_host tok_cafe
                                (world_of [])) <>
  fst (authenticate_credentials (demo_cfg false) demo_host tok_cafe
                                (world_of [row_bob])).
Proof. repeat split; try reflexivity; discriminate. Qed.

Lemma failure_values_witness :
  decode_utf8 demo_host tok_cafe = Some (txt tok_cafe) /\
  authenticate_credentials (demo_cfg false) demo_host tok_cafe (world_of []) =
  (Raise (AuthenticationFailed msg_invalid_token), world_of []) /\
  authenticate_credentials (demo_cfg false) demo_host tok_cafe
                           (world_of [row_bob]) =
  (Raise (AuthenticationFailed msg_inactive), world_of [row_bob]).
Proof.
  split; [reflexivity|]; split.
  - apply (proj1 (failure_values (demo_cfg false) demo_host tok_cafe
                                 (txt tok_cafe) (world_of []) eq_refl)).
    reflexivity.
  - destruct (failure_values (demo_cfg false) demo_host tok_cafe
                             (txt tok_cafe) (world_of [row_bob]) eq_refl)
      as (_ & _ & Hinactive & _).
    apply (Hinactive row_bob [] (world_of [row_bob]) (world_of [row_bob])
                     (digest row_bob)); try reflexivity.
    apply reaches_here.
Defined.

(** C5 as the specification words it does not hold: the digest of the only row matches, its
    owner is active, the database refuses the UPDATE of the renewal, and the
    call raises. *)
Lemma refused_renewal_fails_the_call :
  hash_token failing_host (txt tok_cafe) (salt row_live) =
  inr (digest row_live) /\
  is_active (user row_live) = true /\
  authenticate_credentials (demo_cfg true) failing_host tok_cafe
                           (world_of [row_live]) =
  (Raise DatabaseError, mkWorld [row_live] [] 2 1).
Proof. repeat split. Qed.


(** C9 at a never-expiring token of an active owner. *)
Lemma renewal_of_unset_expiry_raises_witness :
  expires row_plain = None /\ is_active (user row_plain) = true /\
  authenticate_credentials (demo_cfg true) demo_host tok_cafe
                           (world_of [row_plain]) =
  (Raise TypeError, mkWorld [row_plain] [] 1 0) /\
  authenticate_credentials (demo_cfg false) demo_host tok_cafe
                           (world_of [row_plain]) =
  (Ok (alice, row_plain), world_of [row_plain]).
Proof.
  split; [reflexivity|]; split; [reflexivity|]; split.
  - apply (proj1 (renewal_of_unset_expiry_raises
                    (demo_cfg true) demo_host tok_cafe (txt tok_cafe)
                    (digest row_plain) row_plain [] (world_of [row_plain])
                    (world_of [row_plain]) (world_of [row_plain]) eq_refl
                    (reaches_here _ _ _ _) eq_refl eq_refl eq_refl eq_refl)).
    reflexivity.
  - apply (proj2 (renewal_of_unset_expiry_raises
                    (demo_cfg false) demo_host tok_cafe (txt tok_cafe)
                    (digest row_plain) row_plain [] (world_of [row_plain])
                    (world_of [row_plain]) (world_of [row_plain]) eq_refl
                    (reaches_here _ _ _ _) eq_refl eq_refl eq_refl eq_refl));
      reflexivity.
Defined.


(** * Further properties *)

(** ** The layout of the header *)

Lemma split_from_blank (sp s : string) :
  blank sp ->
  split_from EmptyString (sp ++ s) = split_from EmptyString s.
Proof.
  unfold blank; induction sp as [|ch sp IH]; simpl; [reflexivity|].
  rewrite andb_true_iff; intros [-> Hsp]; now apply IH.
Qed.

Lemma split_from_word (x s cur : string) :
  space_free x ->
  split_from cur (x ++ s) = split_from (cur ++ x) s.
Proof.
  unfold space_free; revert cur; induction x as [|ch x IH]; intros cur; simpl.
  - now rewrite append_empty_r.
  - rewrite andb_true_iff, negb_true_iff; intros [-> Hx].
    rewrite IH by assumption; now rewrite append_assoc.
Qed.

Lemma split_from_gap (cur sp s : string) :
  cur <> EmptyString -> blank sp -> sp <> EmptyString ->
  split_from cur (sp ++ s) = cur :: split_from EmptyString s.
Proof.
  intros Hcur Hsp Hne; destruct sp as [|ch sp]; [congruence|].
  unfold blank in Hsp; simpl in *.
  apply andb_true_iff in Hsp as [-> Hsp].
  destruct cur; [congruence|]; cbn [is_empty].
  now rewrite split_from_blank.
Qed.

Lemma split_from_tail (cur sp : string) :
  cur <> EmptyString -> blank sp -> split_from cur sp = [cur].
Proof.
  intros Hcur Hsp; destruct sp as [|ch sp].
  - destruct cur; [congruence|reflexivity].
  - rewrite <- (append_empty_r (String ch sp)).
    now rewrite split_from_gap.
Qed.

Lemma split_one (sp0 a sp1 : string) :
  blank sp0 -> a <> EmptyString -> space_free a -> blank sp1 ->
  split (sp0 ++ a ++ sp1) = [a].
Proof.
  intros H0 Ha Hfa H1; unfold split.
  rewrite split_from_blank, split_from_word by assumption.
  now apply split_from_tail.
Qed.

Lemma split_two (sp0 a sp1 b sp2 : string) :
  blank sp0 -> a <> EmptyString -> space_free a ->
  blank sp1 -> sp1 <> EmptyString ->
  b <> EmptyString -> space_free b -> blank sp2 ->
  split (sp0 ++ a ++ sp1 ++ b ++ sp2) = [a; b].
Proof.
  intros H0 Ha Hfa H1 Hn1 Hb Hfb H2; unfold split.
  rewrite split_from_blank, split_from_word by assumption.
  rewrite split_from_gap by assumption.
  rewrite split_from_word by assumption.
  now rewrite split_from_tail.
Qed.

Lemma lower_byte_space (c : ascii) :
  is_space (lower_byte c) = is_space c.
Proof. destruct c as [[] [] [] [] [] [] [] []]; reflexivity. Qed.

Lemma lower_space_free (s : string) : space_free (lower s) -> space_free s.
Proof.
  unfold space_free; induction s as [|c s IH]; simpl; [tauto|].
  rewrite lower_byte_space, !andb_true_iff; tauto.
Qed.

Lemma lower_token_word (scheme : string) :
  lower scheme = "token" -> scheme <> EmptyString /\ space_free scheme.
Proof.
  intros Hs; split; [now intros ->|].
  apply lower_space_free; now rewrite Hs.
Qed.

(** X1. A header made of the scheme word in any spelling of "token",
    white space, and a token free of white space, with any white space around
    them, is handed to [authenticate_credentials] as that token; the scheme
    word with nothing but white space after it is refused. *)
Theorem authenticate_any_layout (cfg : Settings) (host : Host)
        (sp0 scheme sp1 token sp2 : string) (w : World) :
  blank sp0 -> lower scheme = "token" ->
  blank sp1 -> blank sp2 ->
  (authenticate cfg host (sp0 ++ scheme ++ sp1) w =
   (Raise (AuthenticationFailed msg_no_credentials), w)) /\
  (sp1 <> EmptyString -> token <> EmptyString -> space_free token ->
   authenticate cfg host (sp0 ++ scheme ++ sp1 ++ token ++ sp2) w =
   delegated (authenticate_credentials cfg host token w)).
Proof.
  intros H0 Hs H1 H2.
  destruct (lower_token_word scheme Hs) as [Hne Hfree].
  apply String.eqb_eq in Hs.
  split.
  - unfold authenticate; rewrite split_one by assumption; now rewrite Hs.
  - intros Hn1 Ht Hft; unfold authenticate.
    rewrite split_two by assumption; rewrite Hs; cbn [negb].
    unfold bind, ret, delegated.
    now destruct (authenticate_credentials cfg host token w) as [[r|e] w'].
Qed.

Lemma authenticate_any_layout_witness :
  lower "TOKEN" = "token" /\
  authenticate (demo_cfg false) demo_host "  TOKEN   abc12345cafe "
               (world_of [row_plain]) =
  (Ok (Some (alice, row_plain)), world_of [row_plain]).
Proof.
  split; [reflexivity|].
  exact (proj2 (authenticate_any_layout
                  (demo_cfg false) demo_host "  " "TOKEN" "   " tok_cafe " "
                  (world_of [row_plain]) eq_refl eq_refl eq_refl eq_refl)
               ltac:(discriminate) ltac:(discriminate) eq_refl).
Defined.

(** X2. The scheme that [authenticate_header] announces is one that
    [authenticate] accepts: that word, a space and a token free of white
    space are handed to [authenticate_credentials] as that token. *)
Theorem announced_scheme_is_accepted (cfg : Settings) (host : Host)
        (request token : string) (w : World) :
  token <> EmptyString -> space_free token ->
  authenticate cfg host (authenticate_header request ++ " " ++ token) w =
  delegated (authenticate_credentials cfg host token w).
Proof.
  intros Ht Hft.
  pose proof (authenticate_any_layout
                cfg host EmptyString (authenticate_header request) " " token
                EmptyString w eq_refl eq_refl eq_refl eq_refl) as [_ Hd].
  rewrite append_empty_r in Hd; apply Hd; [discriminate|assumption..].
Qed.

Lemma announced_scheme_is_accepted_witness :
  space_free tok_beef /\
  authenticate (demo_cfg false) demo_host
               (authenticate_header "" ++ " " ++ tok_beef)
               (world_of [row_plain]) =
  (Raise (AuthenticationFailed msg_invalid_token), world_of [row_plain]).
Proof.
  split; [reflexivity|].
  exact (announced_scheme_is_accepted
           (demo_cfg false) demo_host "" tok_beef (world_of [row_plain])
           ltac:(discriminate) eq_refl).
Defined.

(** X3. [authenticate] returns an identity only for a header of exactly two
    words, the first a spelling of "token"; the identity is the one
    [authenticate_credentials] returns for the second word, which is not
    empty and holds no white space.  No other header authenticates. *)
Theorem authenticated_header_shape (cfg : Settings) (host : Host)
        (header : string) (w w' : World) (ua : User * AuthToken) :
  authenticate cfg host header w = (Ok (Some ua), w') ->
  exists scheme token,
    split header = [scheme; token] /\
    lower scheme = "token" /\
    token <> EmptyString /\ space_free token /\
    without_spaces header = (scheme ++ token)%string /\
    authenticate_credentials cfg host token w = (Ok ua, w').
Proof.
  unfold authenticate; intros Hrun.
  pose proof (split_words header) as Hwords.
  pose proof (split_concat header) as Hcat.
  destruct (split header) as [|scheme [|token [|x more]]]; try discriminate.
  - destruct (negb (lower scheme =? "token")%string); discriminate.
  - destruct (lower scheme =? "token")%string eqn:Hs; [|discriminate].
    cbn [negb] in Hrun; unfold bind, ret in Hrun.
    destruct (authenticate_credentials cfg host token w) as [[r|e] w1] eqn:Hc;
      [|discriminate].
    inversion Hrun; subst.
    destruct (Hwords token) as [Hne Hfree]; [right; now left|].
    exists scheme, token.
    split; [reflexivity|]. split; [now apply String.eqb_eq|].
    split; [exact Hne|]. split; [exact Hfree|]. split; [|exact Hc].
    rewrite <- Hcat; reflexivity.
  - destruct (negb (lower scheme =? "token")%string); discriminate.
Qed.

Lemma authenticated_header_shape_witness :
  exists scheme token,
    split "Token abc12345cafe" = [scheme; token] /\
    lower scheme = "token" /\
    authenticate_credentials (demo_cfg false) demo_host token
                             (world_of [row_plain]) =
    (Ok (alice, row_plain), world_of [row_plain]).
Proof.
  destruct (authenticated_header_shape
              (demo_cfg false) demo_host "Token abc12345cafe"
              (world_of [row_plain]) (world_of [row_plain]) (alice, row_plain)
              eq_refl) as (scheme & token & Hs & Hl & _ & _ & _ & Hrun).
  exists scheme, token; auto.
Defined.

(** ** Tables that only thin *)

Lemma same_identity_refl (r : AuthToken) : same_identity r r.
Proof. now repeat split. Qed.

Lemma same_identity_trans (a b c : AuthToken) :
  same_identity a b -> same_identity b c -> same_identity a c.
Proof. unfold same_identity; intuition congruence. Qed.

Lemma thinned_refl (rows : list AuthToken) : thinned rows rows.
Proof.
  induction rows; constructor; [apply same_identity_refl|assumption].
Qed.

Lemma thinned_filter (p : AuthToken -> bool) (rows : list AuthToken) :
  thinned rows (filter p rows).
Proof.
  induction rows as [|r rows IH]; simpl; [constructor|].
  destruct (p r); constructor; [apply same_identity_refl|assumption..].
Qed.

Lemma thinned_write (t : AuthToken) (rows : list AuthToken) :
  thinned rows (write_expires t rows).
Proof.
  induction rows as [|r rows IH]; simpl; constructor; [|assumption].
  destruct (same_row t r); now repeat split.
Qed.

Lemma thinned_trans (a b : list AuthToken) :
  thinned a b -> forall c, thinned b c -> thinned a c.
Proof.
  induction 1 as [|r rows rows' _ IH|r r' rows rows' Hid _ IH]; intros c Hbc.
  - assumption.
  - constructor; now apply IH.
  - inversion Hbc as [|? ? ? Hc|? r'' ? c' Hid' Hc]; subst.
    + constructor; now apply IH.
    + constructor; [now apply same_identity_trans with r'|now apply IH].
Qed.

Lemma thinned_In (rows rows' : list AuthToken) :
  thinned rows rows' ->
  forall r', In r' rows' -> exists r, In r rows /\ same_identity r r'.
Proof.
  induction 1 as [|r rows rows' _ IH|r r0 rows rows' Hid _ IH]; intros r' Hr'.
  - contradiction.
  - destruct (IH r' Hr') as (x & Hx & Hxr); exists x; split; [now right|auto].
  - destruct Hr' as [<-|Hr'].
    + exists r; split; [now left|assumption].
    + destruct (IH r' Hr') as (x & Hx & Hxr); exists x; split;
        [now right|auto].
Qed.

Lemma thinned_unique (rows rows' : list AuthToken) :
  thinned rows rows' -> unique_digests rows -> unique_digests rows'.
Proof.
  unfold unique_digests.
  induction 1 as [|r rows rows' _ IH|r r' rows rows' Hid Hth IH]; simpl;
    intros Hnd.
  - constructor.
  - inversion Hnd; auto.
  - inversion Hnd as [|? ? Hr Hrows]; subst; constructor; [|auto].
    rewrite in_map_iff; intros (x & Hxd & Hx).
    destruct (thinned_In _ _ Hth x Hx) as (y & Hy & Hyx).
    apply Hr; rewrite in_map_iff; exists y; split; [|assumption].
    destruct Hid as [Hd _], Hyx as [Hd' _]; congruence.
Qed.

(** ** Stretches of cleanup *)

Lemma filter_keep_all (A : Type) (l : list A) : filter (fun _ => true) l = l.
Proof. now apply filter_all. Qed.

Lemma truthful_filter (base rows : list AuthToken) (p : AuthToken -> bool)
      (s : Signal) :
  truthful base rows s -> truthful base (filter p rows) s.
Proof.
  intros [Hsrc (r & Hr & Hu & Hd)]; split; [assumption|].
  exists r; repeat split; auto.
  rewrite in_map_iff; intros (x & Hx & Hin); apply Hd.
  apply filter_In in Hin as [Hin _]; rewrite in_map_iff; now exists x.
Qed.

Lemma evolves_still (host : Host) (base : list AuthToken) (w w' : World) :
  ticks w <= ticks w' -> muts w <= muts w' ->
  db w' = db w -> signals w' = signals w ->
  evolves host base w w'.
Proof.
  intros Htk Hmu Hdb Hsig; repeat split; auto.
  - exists (fun _ => true); now rewrite filter_keep_all.
  - intros _ r Hr; left; now rewrite Hdb.
  - exists []; rewrite app_nil_r; split; [assumption|constructor].
Qed.

Lemma evolves_refl (host : Host) (base : list AuthToken) (w : World) :
  evolves host base w w.
Proof. now apply evolves_still. Qed.

Lemma evolves_trans (host : Host) (base : list AuthToken) (a b c : World) :
  evolves host base a b -> evolves host base b c -> evolves host base a c.
Proof.
  intros (Ht1 & Hm1 & (p1 & Hp1) & He1 & (m1 & Hs1 & Hf1))
         (Ht2 & Hm2 & (p2 & Hp2) & He2 & (m2 & Hs2 & Hf2)).
  repeat split; try lia.
  - exists (fun x => p1 x && p2 x); now rewrite Hp2, Hp1, filter_twice.
  - intros Hu r Hr; destruct (He1 Hu r Hr) as [Hb|(k & Hk1 & Hk2 & Hex)].
    + destruct (He2 Hu r Hb) as [Hc|(k & Hk1 & Hk2 & Hex)]; [now left|].
      right; exists k; repeat split; auto; lia.
    + right; exists k; repeat split; auto; lia.
  - exists (m1 ++ m2); split; [now rewrite Hs2, Hs1, app_assoc|].
    apply Forall_app; split; [|assumption].
    rewrite Hp2; eapply Forall_impl; [|exact Hf1].
    intros s; apply truthful_filter.
Qed.

Lemma evolves_incl (host : Host) (base : list AuthToken) (w w' : World) :
  evolves host base w w' -> incl (db w) base -> incl (db w') base.
Proof.
  intros (_ & _ & (p & Hp) & _) Hin r Hr; apply Hin.
  rewrite Hp in Hr; now apply filter_In in Hr.
Qed.

(** One expired row found at the next reading, deleted and signalled. *)
Lemma evolves_expire (host : Host) (base : list AuthToken) (t : AuthToken)
      (src : string) (w : World) :
  incl (db w) base -> In t base ->
  src = "other_token" \/ src = "auth_token" ->
  expired_at (clock host (ticks w)) t = true ->
  evolves host base w
          (mkWorld (drop_row t (db w))
                   (signals w ++ [TokenExpired (username (user t)) src])
                   (S (ticks w)) (S (muts w))).
Proof.
  intros Hin Ht Hsrc Hexp; repeat split; cbn [db signals ticks muts]; try lia.
  - now exists (fun r => negb (same_row t r)).
  - intros Hu r Hr; destruct (same_row t r) eqn:Hsame.
    + right; exists (ticks w); repeat split; try lia.
      apply text_eqb_eq in Hsame.
      now rewrite (unique_key _ _ digest base r t Hu (Hin r Hr) Ht Hsame).
    + left; unfold drop_row; rewrite filter_In, Hsame; now split.
  - eexists; split; [reflexivity|]; constructor; [|constructor].
    split; [assumption|]; exists t; repeat split; auto.
    unfold drop_row; rewrite in_map_iff; intros (x & Hx & Hxin).
    apply filter_In in Hxin as [_ Hneg]; unfold same_row in Hneg.
    rewrite Hx, text_eqb_refl in Hneg; discriminate.
Qed.

Lemma drop_row_incl (t : AuthToken) (rows base : list AuthToken) :
  incl rows base -> incl (drop_row t rows) base.
Proof. intros Hin r Hr; apply Hin; now apply filter_In in Hr. Qed.

(** The first loop of [_cleanup_token], whatever the database does. *)
Lemma sweep_others_evolves (host : Host) (base : list AuthToken)
      (c : AuthToken) (others : list AuthToken) :
  incl others base ->
  forall w res w',
    incl (db w) base ->
    sweep_others host c others w = (res, w') ->
    evolves host base w w'.
Proof.
  induction others as [|o rest IH]; intros Hothers w res w' Hdb Hrun.
  - inversion Hrun; subst; apply evolves_refl.
  - assert (incl rest base) as Hrest by (intros x Hx; apply Hothers; now right).
    assert (In o base) as Ho by (apply Hothers; now left).
    cbn [sweep_others] in Hrun; unfold bind at 1 in Hrun.
    destruct (negb (text_eqb (digest o) (digest c)));
      [|now apply (IH Hrest w res w')].
    destruct (expires o) as [e|] eqn:He; [|now apply (IH Hrest w res w')].
    unfold bind at 1, timezone_now at 1 in Hrun.
    destruct (e <? clock host (ticks w))%Z eqn:Hlt.
    + unfold bind at 1, delete, mutate in Hrun;
        cbn [db signals ticks muts] in Hrun.
      destruct (store_fault host (muts w)).
      * inversion Hrun; subst; apply evolves_still; cbn; auto.
      * unfold send in Hrun; cbn [db signals ticks muts] in Hrun.
        eapply evolves_trans;
          [apply (evolves_expire host base o "other_token" w); auto|].
        -- unfold expired_at; now rewrite He.
        -- apply (IH Hrest _ res w'); [|exact Hrun].
           now apply drop_row_incl.
    + unfold ret at 1 in Hrun.
      eapply evolves_trans; [|apply (IH Hrest _ res w'); [|exact Hrun]].
      * apply evolves_still; cbn; auto.
      * assumption.
Qed.

(** A whole cleanup pass, whatever the database does. *)
Lemma cleanup_token_evolves (host : Host) (base : list AuthToken)
      (c : AuthToken) (w w' : World) (res : Result bool) :
  In c base -> incl (db w) base ->
  _cleanup_token host c w = (res, w') ->
  evolves host base w w'.
Proof.
  intros Hc Hdb.
  unfold _cleanup_token, bind at 1, auth_token_set_all at 1.
  unfold bind at 1.
  destruct (sweep_others host c _ w) as [[[]|e] ws] eqn:Hsw.
  - assert (evolves host base w ws) as Hev.
    { apply (sweep_others_evolves host base c _) in Hsw; auto.
      intros r Hr; apply Hdb; now apply filter_In in Hr. }
    pose proof (evolves_incl host base w ws Hev Hdb) as Hws.
    destruct (expires c) as [e|] eqn:He.
    + unfold bind at 1, timezone_now at 1.
      destruct (e <? clock host (ticks ws))%Z eqn:Hlt.
      * unfold bind at 1, delete, mutate; cbn [db signals ticks muts].
        destruct (store_fault host (muts ws)).
        -- intros Hrun; inversion Hrun; subst.
           eapply evolves_trans; [exact Hev|].
           apply evolves_still; cbn; auto.
        -- unfold bind, send, ret; cbn [db signals ticks muts].
           intros Hrun; inversion Hrun; subst.
           eapply evolves_trans; [exact Hev|].
           apply (evolves_expire host base c "auth_token" ws); auto.
           unfold expired_at; now rewrite He.
      * unfold ret; intros Hrun; inversion Hrun; subst.
        eapply evolves_trans; [exact Hev|].
        apply evolves_still; cbn; auto.
    + unfold ret; intros Hrun; now inversion Hrun; subst.
  - intros Hrun; inversion Hrun; subst.
    apply (sweep_others_evolves host base c _) in Hsw; auto.
    intros r Hr; apply Hdb; now apply filter_In in Hr.
Qed.

(** What [renew_token] does to the world. *)
Lemma renew_token_effect (cfg : Settings) (host : Host) (c : AuthToken)
      (w : World) :
  let w' := snd (snd (renew_token cfg host c w)) in
  ticks w' = S (ticks w) /\ muts w <= muts w' /\ signals w' = signals w /\
  (db w' = db w \/
   expires c <> None /\
   fst (snd (renew_token cfg host c w)) = Ok tt /\
   db w' = write_expires (fst (renew_token cfg host c w)) (db w)).
Proof.
  unfold renew_token, timezone_now.
  destruct (expires c) as [e|] eqn:He; cbn [fst snd ticks muts signals db];
    [|repeat split; auto].
  destruct (_ <? _)%Z; cbn [fst snd ticks muts signals db];
    [|repeat split; auto].
  unfold save_expires, mutate; cbn [db signals ticks muts].
  destruct (store_fault host (muts w)); cbn; [repeat split; auto|].
  destruct (existsb _ (db w)); cbn; repeat split; auto.
  right; repeat split; congruence.
Qed.

Lemma validate_user_world (c : AuthToken) (w w' : World)
      (res : Result (User * AuthToken)) :
  validate_user c w = (res, w') -> w' = w.
Proof.
  unfold validate_user; destruct (is_active (user c)); unfold ret, raise;
    now inversion 1.
Qed.

(** A whole run of the loop: a stretch of cleanup, then at most the one
    write of a renewal. *)
Lemma try_candidates_evolves (cfg : Settings) (host : Host) (token : text)
      (base : list AuthToken) :
  forall cands w res w',
    incl cands base -> incl (db w) base ->
    try_candidates cfg host token cands w = (res, w') ->
    exists w1,
      evolves host base w w1 /\
      ticks w1 <= ticks w' /\ muts w1 <= muts w' /\
      signals w' = signals w1 /\
      (db w' = db w1 \/
       AUTO_REFRESH cfg = true /\
       exists c e, In c cands /\ expires c <> None /\
                   db w' = write_expires (set_expires c (Some e)) (db w1)).
Proof.
  induction cands as [|c rest IH]; intros w res w' Hcands Hdb Hrun.
  - inversion Hrun; subst; exists w'; split; [apply evolves_refl|].
    repeat split; auto.
  - assert (incl rest base) as Hrest by (intros x Hx; apply Hcands; now right).
    assert (In c base) as Hc by (apply Hcands; now left).
    cbn [try_candidates] in Hrun; unfold bind at 1 in Hrun.
    destruct (_cleanup_token host c w) as [[b|e] wc] eqn:Hcl.
    + pose proof (cleanup_token_evolves host base c w wc _ Hc Hdb Hcl) as Hev.
      pose proof (evolves_incl host base w wc Hev Hdb) as Hwc.
      assert (forall res w',
                 try_candidates cfg host token rest wc = (res, w') ->
                 exists w1,
                   evolves host base w w1 /\
                   ticks w1 <= ticks w' /\ muts w1 <= muts w' /\
                   signals w' = signals w1 /\
                   (db w' = db w1 \/
                    AUTO_REFRESH cfg = true /\
                    exists c0 e, In c0 (c :: rest) /\ expires c0 <> None /\
                                 db w' = write_expires
                                           (set_expires c0 (Some e)) (db w1)))
        as Hnext.
      { intros res0 w0 Hr0.
        destruct (IH wc res0 w0 Hrest Hwc Hr0)
          as (w1 & Hev1 & Htk & Hmu & Hsig & Hfin).
        exists w1; split; [now apply evolves_trans with wc|].
        repeat split; auto.
        destruct Hfin as [Hsame|(Hrf & c0 & e0 & Hin & Hne & Hw)];
          [now left|right].
        split; [assumption|]; exists c0, e0; repeat split; auto; now right. }
      assert (exists w1,
                 evolves host base w w1 /\
                 ticks w1 <= ticks wc /\ muts w1 <= muts wc /\
                 signals wc = signals w1 /\
                 (db wc = db w1 \/
                  AUTO_REFRESH cfg = true /\
                  exists c0 e, In c0 (c :: rest) /\ expires c0 <> None /\
                               db wc = write_expires
                                         (set_expires c0 (Some e)) (db w1)))
        as Hstop.
      { exists wc; split; [assumption|]; repeat split; auto. }
      destruct b; [now apply (Hnext res)|].
      destruct (hash_token host token (salt c)) as [x|d].
      * destruct x; inversion Hrun; subst; exact Hstop.
      * destruct (compare_digest d (digest c)); [|now apply (Hnext res)].
        destruct (AUTO_REFRESH cfg) eqn:Hrf.
        -- pose proof (renew_token_effect cfg host c wc) as Heff.
           pose proof (renew_token_instance cfg host c wc) as Hi.
           destruct (renew_token cfg host c wc) as [c' [r wr]].
           cbn [fst snd] in Heff, Hi.
           destruct Heff as (Htk & Hmu & Hsig & Hdbr).
           assert (w' = wr) as ->.
           { destruct r as [[]|e]; [|now inversion Hrun].
             now apply validate_user_world in Hrun. }
           exists wc; split; [assumption|].
           split; [lia|]. split; [assumption|]. split; [assumption|].
           destruct Hdbr as [Hsame|(Hne & _ & Hw)]; [now left|right].
           split; [reflexivity|].
           exists c, (clock host (ticks wc) + TOKEN_TTL cfg)%Z.
           split; [now left|]. split; [assumption|]. now rewrite <- Hi.
        -- apply validate_user_world in Hrun; subst; exact Hstop.
    + inversion Hrun; subst.
      exists w'; split;
        [now apply (cleanup_token_evolves host base c w w' (Raise e))|].
      repeat split; auto.
Qed.

Lemma write_expires_digests (t : AuthToken) (rows : list AuthToken) :
  map digest (write_expires t rows) = map digest rows.
Proof.
  induction rows as [|r rows IH]; simpl; [reflexivity|].
  rewrite IH; now destruct (same_row t r).
Qed.

Lemma write_expires_other (t r : AuthToken) (rows : list AuthToken) :
  In r rows -> same_row t r = false -> In r (write_expires t rows).
Proof.
  intros Hr Hs; unfold write_expires; apply in_map_iff.
  exists r; now rewrite Hs.
Qed.

(** A call of [authenticate_credentials], whatever the database does: a
    stretch of cleanup on the table as it was, then at most one renewal. *)
Lemma authenticate_credentials_evolves (cfg : Settings) (host : Host)
      (tok : string) (w w' : World) (res : Result (User * AuthToken)) :
  authenticate_credentials cfg host tok w = (res, w') ->
  exists w1,
    evolves host (db w) w w1 /\
    ticks w1 <= ticks w' /\ muts w1 <= muts w' /\
    signals w' = signals w1 /\
    (db w' = db w1 \/
     AUTO_REFRESH cfg = true /\
     exists c e, In c (db w) /\ expires c <> None /\
                 db w' = write_expires (set_expires c (Some e)) (db w1)).
Proof.
  unfold authenticate_credentials.
  destruct (decode_utf8 host tok) as [token|].
  - unfold bind, filter_token_key; intros Hrun.
    apply (try_candidates_evolves cfg host token (db w)) in Hrun.
    + destruct Hrun as (w1 & Hev & Htk & Hmu & Hsig & Hfin).
      exists w1; repeat (split; [assumption|]).
      destruct Hfin as [Hsame|(Hrf & c & e & Hc & Hne & Hw)]; [now left|].
      right; split; [assumption|]; exists c, e; repeat split; auto.
      now apply filter_In in Hc.
    + intros r Hr; now apply filter_In in Hr.
    + apply incl_refl.
  - unfold raise; intros Hrun; inversion Hrun; subst.
    exists w'; split; [apply evolves_refl|]; repeat split; auto.
Qed.

(** [authenticate] either leaves the world alone or is one call of
    [authenticate_credentials]. *)
Lemma authenticate_world (cfg : Settings) (host : Host) (header : string)
      (w w' : World) (res : Result (option (User * AuthToken))) :
  authenticate cfg host header w = (res, w') ->
  w' = w \/
  exists tok res0, authenticate_credentials cfg host tok w = (res0, w').
Proof.
  unfold authenticate.
  destruct (split header) as [|scheme [|token [|x more]]];
    try (destruct (negb _)); unfold ret, raise;
    try (intros Hrun; inversion Hrun; now left).
  unfold bind; intros Hrun; right.
  destruct (authenticate_credentials cfg host token w) as [r w0] eqn:Hc.
  exists token, r.
  destruct r; inversion Hrun; subst; exact Hc.
Qed.

(** X4. Whatever the header, the outcome and the database do, a call of
    [authenticate] leaves the table a thinning of what it was: rows are
    removed or stay in place, and a row that stays keeps its digest, key,
    salt and owner.  Unique digests stay unique.  With AUTO_REFRESH off every
    row of the table afterwards is, unchanged, a row of the table before. *)
Theorem call_thins_table (cfg : Settings) (host : Host) (header : string)
        (w w' : World) (res : Result (option (User * AuthToken))) :
  authenticate cfg host header w = (res, w') ->
  thinned (db w) (db w') /\
  (unique_digests (db w) -> unique_digests (db w')) /\
  (AUTO_REFRESH cfg = false -> forall r, In r (db w') -> In r (db w)).
Proof.
  intros Hrun.
  assert (thinned (db w) (db w') /\
          (AUTO_REFRESH cfg = false -> forall r, In r (db w') -> In r (db w)))
    as [Hth Hoff].
  { apply authenticate_world in Hrun as [->|(tok & res0 & Hc)].
    - split; [apply thinned_refl|auto].
    - apply authenticate_credentials_evolves in Hc
        as (w1 & (_ & _ & (p & Hp) & _) & _ & _ & _ & Hfin).
      destruct Hfin as [->|(Hrf & c & e & _ & _ & ->)]; rewrite Hp.
      + split; [apply thinned_filter|].
        intros _ r Hr; now apply filter_In in Hr.
      + split; [|congruence].
        eapply thinned_trans; [apply thinned_filter|apply thinned_write]. }
  split; [assumption|]; split; [|assumption].
  now apply thinned_unique.
Qed.

(** X5. With unique digests, and whatever the outcome and the database do,
    the digest of a row leaves the table during a call of [authenticate] only
    if the row had an expiry that lay before one of the readings of the clock
    taken during the call.  A row with no expiry is still in the table,
    unchanged, after the call. *)
Theorem only_expired_rows_vanish (cfg : Settings) (host : Host)
        (header : string) (w w' : World)
        (res : Result (option (User * AuthToken))) :
  unique_digests (db w) ->
  authenticate cfg host header w = (res, w') ->
  forall r, In r (db w) ->
    (In (digest r) (map digest (db w')) \/
     exists k, ticks w <= k /\ k < ticks w' /\
               expired_at (clock host k) r = true) /\
    (expires r = None -> In r (db w')).
Proof.
  intros Hu Hrun r Hr.
  apply authenticate_world in Hrun as [->|(tok & res0 & Hc)].
  - split; [left; now apply in_map|auto].
  - apply authenticate_credentials_evolves in Hc
      as (w1 & (_ & _ & _ & Hexp & _) & Htk & _ & _ & Hfin).
    assert (map digest (db w') = map digest (db w1)) as Hdig
        by (destruct Hfin as [->|(_ & c & e & _ & _ & ->)];
            [reflexivity|apply write_expires_digests]).
    destruct (Hexp Hu r Hr) as [Hin|(k & Hk1 & Hk2 & Hex)].
    + split; [left; rewrite Hdig; now apply in_map|].
      intros Hnone.
      destruct Hfin as [->|(_ & c & e & Hcin & Hne & ->)]; [assumption|].
      apply write_expires_other; [assumption|].
      unfold same_row; cbn [digest set_expires]; apply text_eqb_neq.
      intros Heq; apply Hne.
      now rewrite <- (unique_key _ _ digest (db w) r c Hu Hr Hcin Heq).
    + split; [right; exists k; repeat split; auto; lia|].
      intros Hnone; unfold expired_at in Hex; rewrite Hnone in Hex.
      discriminate.
Qed.

(** X6. Whatever the outcome and the database do, every signal sent during a
    call of [authenticate] is a [token_expired] with source "other_token" or
    "auth_token" that names the owner of a row that was in the table before
    the call and whose digest is not in the table after it. *)
Theorem signals_are_truthful (cfg : Settings) (host : Host) (header : string)
        (w w' : World) (res : Result (option (User * AuthToken))) :
  authenticate cfg host header w = (res, w') ->
  exists more,
    signals w' = signals w ++ more /\
    Forall (truthful (db w) (db w')) more.
Proof.
  intros Hrun.
  apply authenticate_world in Hrun as [->|(tok & res0 & Hc)].
  - exists []; rewrite app_nil_r; split; [reflexivity|constructor].
  - apply authenticate_credentials_evolves in Hc
      as (w1 & (_ & _ & _ & _ & (more & Hsig & Htrue)) & _ & _ & Hs & Hfin).
    exists more; split; [congruence|].
    assert (map digest (db w') = map digest (db w1)) as Hdig
        by (destruct Hfin as [->|(_ & c & e & _ & _ & ->)];
            [reflexivity|apply write_expires_digests]).
    eapply Forall_impl; [|exact Htrue].
    intros s [Hsrc (r & Hr & Hname & Hgone)]; split; [assumption|].
    exists r; repeat split; auto; now rewrite Hdig.
Qed.

(** ** A sound database *)

(** The reading against which the cleanup pass holds the candidate is the
    last one of the pass. *)
Lemma cleanup_token_kept_last (host : Host) (c : AuthToken) (w w' : World) :
  _cleanup_token host c w = (Ok false, w') ->
  expires c = None \/
  exists k, ticks w' = S k /\ expired_at (clock host k) c = false.
Proof.
  unfold _cleanup_token, bind at 1, auth_token_set_all at 1.
  unfold bind at 1.
  destruct (sweep_others host c _ w) as [[[]|x] ws]; [|discriminate].
  unfold expired_at; destruct (expires c) as [e|]; [|now left].
  unfold bind at 1, timezone_now at 1.
  destruct (e <? clock host (ticks ws))%Z eqn:Hlt.
  - unfold bind at 1, delete, mutate; cbn [db signals ticks muts].
    destruct (store_fault host (muts ws)); [discriminate|].
    unfold bind, send, ret; discriminate.
  - unfold ret; intros Hrun; inversion Hrun; subst; cbn.
    right; now exists (ticks ws).
Qed.

Lemma same_row_present (c : AuthToken) (rows : list AuthToken) :
  In c rows -> existsb (same_row c) rows = true.
Proof.
  intros Hc; apply existsb_exists; exists c; split; [assumption|].
  apply text_eqb_refl.
Qed.

Lemma kept_unless_expired_start (host : Host) (w : World) :
  kept_unless_expired host (db w) w.
Proof. split; [apply incl_refl|]; intros r Hr; now left. Qed.

Lemma kept_unless_expired_step (host : Host) (base : list AuthToken)
      (w w' : World) :
  unique_digests base ->
  evolves host base w w' ->
  kept_unless_expired host base w -> kept_unless_expired host base w'.
Proof.
  intros Hu Hev [Hin Hk]; split; [now apply (evolves_incl host base w)|].
  destruct Hev as (Htk & _ & _ & Hexp & _).
  intros r Hr; destruct (Hk r Hr) as [Hw|(k & Hlt & Hex)].
  - destruct (Hexp Hu r Hw) as [Hw'|(k & _ & Hlt & Hex)]; [now left|].
    right; now exists k.
  - right; exists k; split; [lia|assumption].
Qed.

(** With a clock that does not go back, a candidate that the cleanup pass
    keeps is still in the table. *)
Lemma kept_candidate_present (host : Host) (base : list AuthToken)
      (c : AuthToken) (w w' : World) :
  monotone_clock host ->
  In c base ->
  kept_unless_expired host base w' ->
  _cleanup_token host c w = (Ok false, w') ->
  In c (db w').
Proof.
  intros Hmono Hc [_ Hk] Hrun.
  destruct (Hk c Hc) as [Hin|(k & Hlt & Hex)]; [assumption|exfalso].
  destruct (cleanup_token_kept_last host c w w' Hrun)
    as [Hn|(k' & Hk' & Hkept)].
  - unfold expired_at in Hex; rewrite Hn in Hex; discriminate.
  - apply (expired_at_later _ (clock host k')) in Hex; [congruence|].
    apply Hmono; lia.
Qed.

Lemma try_candidates_sound (cfg : Settings) (host : Host) (token : text)
      (base : list AuthToken) :
  no_faults host -> monotone_clock host -> unique_digests base ->
  (forall t s, hash_token host t s <> inl DatabaseError) ->
  forall l w res w',
    incl l base -> kept_unless_expired host base w ->
    try_candidates cfg host token l w = (res, w') ->
    res <> Raise DatabaseError.
Proof.
  intros Hnf Hmono Hu Hhash; induction l as [|c rest IH];
    intros w res w' Hl Hk Hrun.
  - inversion Hrun; discriminate.
  - assert (incl rest base) as Hrest by (intros x Hx; apply Hl; now right).
    assert (In c base) as Hc by (apply Hl; now left).
    destruct (cleanup_token_sound host c w Hnf) as (wc & Hcl & _).
    pose proof (cleanup_token_evolves host base c w wc _ Hc (proj1 Hk) Hcl)
      as Hev.
    pose proof (kept_unless_expired_step host base w wc Hu Hev Hk) as Hkc.
    cbn [try_candidates] in Hrun; unfold bind at 1 in Hrun.
    rewrite Hcl in Hrun.
    destruct (expired_at _ c); [now apply (IH wc res w')|].
    pose proof (kept_candidate_present host base c w wc Hmono Hc Hkc Hcl)
      as Hrow.
    destruct (hash_token host token (salt c)) as [x|d] eqn:Hh.
    + destruct x; inversion Hrun; try discriminate.
      now destruct (Hhash _ _ Hh).
    + destruct (compare_digest d (digest c)); [|now apply (IH wc res w')].
      assert (forall c1 w1, validate_user c1 w1 = (res, w') ->
                            res <> Raise DatabaseError) as Hval.
      { intros c1 w1; unfold validate_user.
        destruct (is_active (user c1)); inversion 1; discriminate. }
      destruct (AUTO_REFRESH cfg); [|now apply (Hval c wc)].
      destruct (expires c) as [e|] eqn:He.
      * destruct (Z_lt_dec (MIN_REFRESH_INTERVAL cfg * 1000000)
                           (clock host (ticks wc) + TOKEN_TTL cfg - e))
          as [Hov|Hov].
        -- pose proof (renew_token_written cfg host c wc e He Hov (Hnf _)
                         (same_row_present c (db wc) Hrow)) as Hrn.
           destruct (renew_token cfg host c wc) as [c' [r wr]].
           cbn [snd] in Hrn; inversion Hrn; subst; eapply Hval; eassumption.
        -- pose proof (renew_token_fresh cfg host c wc e He Hov) as Hrn.
           destruct (renew_token cfg host c wc) as [c' [r wr]].
           cbn [snd] in Hrn; inversion Hrn; subst; eapply Hval; eassumption.
      * pose proof (renew_token_unset cfg host c wc He) as Hrn.
        destruct (renew_token cfg host c wc) as [c' [r wr]].
        cbn [snd] in Hrn; inversion Hrn; subst.
        inversion Hrun; discriminate.
Qed.

(** X8. On a database that refuses no mutation, with unique digests and a
    clock that does not go back, [authenticate_credentials] never raises
    [DatabaseError] (unless [hash_token] itself does): when the renewal
    issues its UPDATE, the row is still in the table. *)
Theorem sound_store_never_fails (cfg : Settings) (host : Host) (tok : string)
        (w w' : World) (res : Result (User * AuthToken)) :
  no_faults host -> monotone_clock host -> unique_digests (db w) ->
  (forall t s, hash_token host t s <> inl DatabaseError) ->
  authenticate_credentials cfg host tok w = (res, w') ->
  res <> Raise DatabaseError.
Proof.
  intros Hnf Hmono Hu Hhash; unfold authenticate_credentials.
  destruct (decode_utf8 host tok) as [token|].
  - unfold bind, filter_token_key; intros Hrun.
    apply (try_candidates_sound cfg host token (db w) Hnf Hmono Hu Hhash)
      in Hrun; [assumption| |apply kept_unless_expired_start].
    intros r Hr; now apply filter_In in Hr.
  - unfold raise; inversion 1; discriminate.
Qed.

(** ** A token that is valid *)




(** ** Renewal, again *)

Lemma renew_token_issues (cfg : Settings) (host : Host) (c : AuthToken)
      (w : World) (e : Z) :
  expires c = Some e ->
  muts (snd (snd (renew_token cfg host c w))) =
  if (MIN_REFRESH_INTERVAL cfg * 1000000 <?
      clock host (ticks w) + TOKEN_TTL cfg - e)%Z
  then S (muts w) else muts w.
Proof.
  intros He; unfold renew_token, timezone_now; rewrite He.
  destruct (_ <? _)%Z; cbn [snd muts]; [|reflexivity].
  unfold save_expires; now rewrite mutate_counts.
Qed.

Lemma renew_token_ticks (cfg : Settings) (host : Host) (c : AuthToken)
      (w : World) :
  ticks (snd (snd (renew_token cfg host c w))) = S (ticks w).
Proof. apply renew_token_effect. Qed.

(** X10. Two renewals of one instance in a row: whatever the first did and
    whatever expiry the instance had, the second issues its UPDATE exactly
    when the clock advanced by more than MIN_REFRESH_INTERVAL seconds between
    the two readings; TOKEN_TTL plays no part. *)
Theorem second_renewal_throttled (cfg : Settings) (host : Host)
        (c : AuthToken) (w : World) :
  let first := renew_token cfg host c w in
  let w1 := snd (snd first) in
  let second := renew_token cfg host (fst first) w1 in
  muts (snd (snd second)) = S (muts w1) <->
  (MIN_REFRESH_INTERVAL cfg * 1000000 <
   clock host (S (ticks w)) - clock host (ticks w))%Z.
Proof.
  intros first w1 second; subst second.
  assert (expires (fst first) =
          Some (clock host (ticks w) + TOKEN_TTL cfg)%Z) as He
      by (unfold first; now rewrite renew_token_instance).
  rewrite (renew_token_issues cfg host (fst first) w1 _ He).
  assert (ticks w1 = S (ticks w)) as -> by apply renew_token_ticks.
  destruct (Z.ltb_spec (MIN_REFRESH_INTERVAL cfg * 1000000)
                       (clock host (S (ticks w)) + TOKEN_TTL cfg -
                        (clock host (ticks w) + TOKEN_TTL cfg))); split;
    intros; lia.
Qed.

(** X11. When MIN_REFRESH_INTERVAL is not negative, a renewal that issues
    its UPDATE moves the expiry forward.  A renewal that would move it back
    or leave it (the new expiry is not after the old one) succeeds, writes
    nothing and leaves the table as it is, yet the instance carries the new,
    earlier expiry. *)
Theorem renewal_never_shortens_stored_expiry (cfg : Settings) (host : Host)
        (c : AuthToken) (w : World) (e : Z) :
  (0 <= MIN_REFRESH_INTERVAL cfg)%Z ->
  expires c = Some e ->
  let new_expiry := (clock host (ticks w) + TOKEN_TTL cfg)%Z in
  let out := renew_token cfg host c w in
  (muts (snd (snd out)) = S (muts w) -> (e < new_expiry)%Z) /\
  ((new_expiry <= e)%Z ->
   snd out = (Ok tt, mkWorld (db w) (signals w) (S (ticks w)) (muts w)) /\
   expires (fst out) = Some new_expiry).
Proof.
  intros Hmin He new_expiry out; subst out; split.
  - rewrite (renew_token_issues cfg host c w e He); fold new_expiry.
    destruct (Z.ltb_spec (MIN_REFRESH_INTERVAL cfg * 1000000)
                         (new_expiry - e)); intros; lia.
  - intros Hle; split.
    + apply (renew_token_fresh cfg host c w e He); fold new_expiry; lia.
    + now rewrite renew_token_instance.
Qed.

(** ** Worked cases, continued *)

Lemma sweep_world_unique : unique_digests (db sweep_world).
Proof.
  unfold unique_digests; cbn.
  repeat constructor; cbn; intuition discriminate.
Qed.

Lemma demo_hash_no_database_error (t s : text) :
  hash_token demo_host t s <> inl DatabaseError.
Proof. cbn; unfold demo_hash; destruct (Nat.even _); discriminate. Qed.

(** X4 to X6 at [sweep_world], where the presented token finds two expired
    rows and one row of another secret. *)
Lemma sweep_world_call :
  authenticate (demo_cfg false) demo_host "Token abc12345cafe" sweep_world =
  (Raise (AuthenticationFailed msg_invalid_token), sweep_world_after).
Proof. vm_compute; reflexivity. Qed.

Lemma call_thins_table_witness :
  thinned (db sweep_world) [row_keep; row_far] /\
  unique_digests [row_keep; row_far].
Proof.
  destruct (call_thins_table
              (demo_cfg false) demo_host "Token abc12345cafe" sweep_world
              sweep_world_after (Raise (AuthenticationFailed msg_invalid_token))
              sweep_world_call) as (Hth & Hu & _).
  split; [exact Hth|exact (Hu sweep_world_unique)].
Defined.

Lemma only_expired_rows_vanish_witness :
  unique_digests (db sweep_world) /\
  (In (digest row_old) (map digest [row_keep; row_far]) \/
   exists k, 0 <= k /\ k < 6 /\
             expired_at (clock demo_host k) row_old = true) /\
  (expires row_keep = None -> In row_keep [row_keep; row_far]).
Proof.
  split; [exact sweep_world_unique|]; split.
  - exact (proj1 (only_expired_rows_vanish
                    (demo_cfg false) demo_host "Token abc12345cafe"
                    sweep_world sweep_world_after
                    (Raise (AuthenticationFailed msg_invalid_token))
                    sweep_world_unique sweep_world_call row_old
                    (or_intror (or_introl eq_refl)))).
  - exact (proj2 (only_expired_rows_vanish
                    (demo_cfg false) demo_host "Token abc12345cafe"
                    sweep_world sweep_world_after
                    (Raise (AuthenticationFailed msg_invalid_token))
                    sweep_world_unique sweep_world_call row_keep
                    (or_intror (or_intror (or_introl eq_refl))))).
Defined.

Lemma signals_are_truthful_witness :
  exists more,
    signals sweep_world_after = signals sweep_world ++ more /\
    Forall (truthful (db sweep_world) [row_keep; row_far]) more.
Proof.
  exact (signals_are_truthful
           (demo_cfg false) demo_host "Token abc12345cafe" sweep_world
           sweep_world_after (Raise (AuthenticationFailed msg_invalid_token))
           sweep_world_call).
Defined.

(** X8 where the renewal writes. *)
Lemma renewing_call :
  authenticate_credentials (demo_cfg true) demo_host tok_cafe
                           (world_of [row_live]) =
  (Ok (alice, set_expires row_live (Some 36000001001%Z)),
   mkWorld [set_expires row_live (Some 36000001001%Z)] [] 2 1).
Proof. vm_compute; reflexivity. Qed.

Lemma sound_store_never_fails_witness :
  no_faults demo_host /\ monotone_clock demo_host /\
  Ok (alice, set_expires row_live (Some 36000001001%Z)) <>
  Raise DatabaseError.
Proof.
  split; [exact demo_host_sound|]; split; [exact demo_clock_monotone|].
  apply (sound_store_never_fails
           (demo_cfg true) demo_host tok_cafe (world_of [row_live])
           (mkWorld [set_expires row_live (Some 36000001001%Z)] [] 2 1)).
  - exact demo_host_sound.
  - exact demo_clock_monotone.
  - unfold unique_digests; cbn; repeat constructor; cbn; tauto.
  - exact demo_hash_no_database_error.
  - exact renewing_call.
Defined.


(** X11 at a row whose expiry lies ahead. *)
Lemma renewal_never_shortens_stored_expiry_witness :
  (0 <= MIN_REFRESH_INTERVAL (demo_cfg true))%Z /\
  (muts (snd (snd (renew_token (demo_cfg true) demo_host row_live
                               (world_of [row_live])))) = 1 ->
   (5000 < 1000 + 36000000000)%Z).
Proof.
  assert (0 <= MIN_REFRESH_INTERVAL (demo_cfg true))%Z as Hmin
      by (cbn; lia).
  split; [exact Hmin|].
  exact (proj1 (renewal_never_shortens_stored_expiry
                  (demo_cfg true) demo_host row_live (world_of [row_live])
                  5000%Z Hmin eq_refl)).
Defined.


(** ** Failures of the hash *)

Lemma try_hash_escapes (cfg : Settings) (host : Host) (token : text)
      (c : AuthToken) (rest : list AuthToken) (w w1 : World) (e : exn) :
  _cleanup_token host c w = (Ok false, w1) ->
  hash_token host token (salt c) = inl e ->
  e <> TypeError -> e <> BinasciiError ->
  try_candidates cfg host token (c :: rest) w = (Raise e, w1).
Proof.
  intros Hc Hh Ht Hb; cbn [try_candidates]; unfold bind; rewrite Hc, Hh.
  destruct e; try reflexivity; congruence.
Qed.

(** C7, as the code has it.  When the loop of [authenticate_credentials]
    has come to candidate [c], the cleanup pass has not discarded it, and
    [hash_token] raises on the presented token with the salt of [c], the call
    ends in the world the cleanup pass of [c] left, whatever candidates
    remain: none of them is cleaned up, hashed or compared.  It raises
    AuthenticationFailed("Invalid token.") when [hash_token] raised
    [TypeError] or [binascii.Error]; an exception of any other class leaves
    the call as it is. *)
Theorem hash_error_ends_search (cfg : Settings) (host : Host) (tok : string)
        (token : text) (c : AuthToken) (rest : list AuthToken)
        (w w0 w1 : World) :
  decode_utf8 host tok = Some token ->
  reaches host token (candidates cfg token w) w (c :: rest) w0 ->
  _cleanup_token host c w0 = (Ok false, w1) ->
  (hash_token host token (salt c) = inl TypeError \/
   hash_token host token (salt c) = inl BinasciiError ->
   authenticate_credentials cfg host tok w =
   (Raise (AuthenticationFailed msg_invalid_token), w1)) /\
  (forall e, hash_token host token (salt c) = inl e ->
             e <> TypeError -> e <> BinasciiError ->
             authenticate_credentials cfg host tok w = (Raise e, w1)).
Proof.
  intros Hd Hr Hc.
  rewrite (authenticate_credentials_loop cfg host tok token w Hd).
  rewrite (reaches_try cfg host token _ _ _ _ Hr).
  split.
  - intros Hh; now apply try_hash_raises.
  - intros e Hh Ht Hb; now apply try_hash_escapes.
Qed.

(** C7 as the specification words it does not hold: the presented token
    decodes, holds a character outside ASCII, [hash_token] raises
    [ValueError] on it, and the call raises that [ValueError], not
    AuthenticationFailed. *)
Lemma hash_value_error_escapes :
  decode_utf8 unicode_host tok_accent = Some (txt "abc12345caf" ++ [233%N]) /\
  hash_token unicode_host (txt "abc12345caf" ++ [233%N]) (salt row_plain) =
  inl ValueError /\
  authenticate_credentials (demo_cfg false) unicode_host tok_accent
                           (world_of [row_plain]) =
  (Raise ValueError, world_of [row_plain]).
Proof. repeat split. Qed.

(** C7 at a token of odd length and at a token outside ASCII, with a second
    candidate that is never looked at. *)
Lemma hash_error_ends_search_witness :
  hash_token demo_host (txt tok_odd) (salt row_plain) = inl BinasciiError /\
  authenticate_credentials (demo_cfg false) demo_host tok_odd
                           (world_of [row_plain; row_bob_stale]) =
  (Raise (AuthenticationFailed msg_invalid_token),
   world_of [row_plain; row_bob_stale]) /\
  authenticate_credentials (demo_cfg false) unicode_host tok_accent
                           (world_of [row_plain; row_bob_stale]) =
  (Raise ValueError, world_of [row_plain; row_bob_stale]).
Proof.
  split; [reflexivity|]; split.
  - apply (proj1 (hash_error_ends_search
                    (demo_cfg false) demo_host tok_odd (txt tok_odd) row_plain
                    [row_bob_stale] (world_of [row_plain; row_bob_stale])
                    (world_of [row_plain; row_bob_stale])
                    (world_of [row_plain; row_bob_stale]) eq_refl
                    (reaches_here _ _ _ _) eq_refl)).
    right; reflexivity.
  - apply (proj2 (hash_error_ends_search
                    (demo_cfg false) unicode_host tok_accent
                    (txt "abc12345caf" ++ [233%N]) row_plain
                    [row_bob_stale] (world_of [row_plain; row_bob_stale])
                    (world_of [row_plain; row_bob_stale])
                    (world_of [row_plain; row_bob_stale]) eq_refl
                    (reaches_here _ _ _ _) eq_refl) ValueError eq_refl);
      discriminate.
Defined.

(** ** Renewal, in the table *)

(** C4 at a table of two rows: the row of the instance gets the new expiry,
    the other row stays. *)
Lemma renew_token_throttled_witness :
  expires row_live = Some 5000%Z /\
  fst (renew_token (demo_cfg true) demo_host row_live
                   (world_of [row_live; row_far])) =
  set_expires row_live (Some 36000001000%Z) /\
  fst (snd (renew_token (demo_cfg true) demo_host row_live
                        (world_of [row_live; row_far]))) = Ok tt /\
  db (snd (snd (renew_token (demo_cfg true) demo_host row_live
                            (world_of [row_live; row_far])))) =
  [set_expires row_live (Some 36000001000%Z); row_far].
Proof.
  split; [reflexivity|].
  destruct (renew_token_throttled (demo_cfg true) demo_host row_live
                                  (world_of [row_live; row_far]))
    as (Hinst & _ & Hset & _).
  split; [exact Hinst|].
  destruct (Hset 5000%Z eq_refl) as (_ & _ & Hover).
  exact (Hover eq_refl eq_refl eq_refl).
Defined.

(** ** The header, by its layout *)

Lemma layout_lead (ch : ascii) (s : string) (ws : list string) :
  is_space ch = true -> layout s ws -> layout (String ch s) ws.
Proof.
  intros Hch Hl.
  assert (forall sp, blank sp -> blank (String ch sp)) as Hb
      by (intros sp Hsp; unfold blank in *; simpl; now rewrite Hch).
  destruct Hl as [sp Hsp|sp x Hsp Hx|sp x gap rest ws Hsp Hx Hgap Hne Hrest].
  - constructor; now apply Hb.
  - apply (layout_last (String ch sp)); auto.
  - apply (layout_more (String ch sp)); auto.
Qed.

(** Every header has a layout: the one [split] finds. *)
Lemma split_from_layout (s cur : string) :
  space_free cur -> layout (cur ++ s) (split_from cur s).
Proof.
  revert cur; induction s as [|ch s IH]; intros cur Hcur.
  - rewrite append_empty_r; destruct cur as [|c0 cur]; cbn.
    + now constructor.
    + apply (layout_last EmptyString); [reflexivity|].
      split; [discriminate|assumption].
  - cbn [split_from]; destruct (is_space ch) eqn:Hch.
    + destruct cur as [|c0 cur]; cbn [is_empty].
      * apply layout_lead; [assumption|].
        now apply (IH EmptyString).
      * apply (layout_more EmptyString (String c0 cur)
                           (String ch EmptyString) s).
        -- reflexivity.
        -- split; [discriminate|assumption].
        -- unfold blank; simpl; now rewrite Hch.
        -- discriminate.
        -- now apply (IH EmptyString).
    + replace (cur ++ String ch s)%string
        with ((cur ++ String ch EmptyString) ++ s)%string
        by (rewrite append_assoc; reflexivity).
      apply IH.
      apply space_free_app; [assumption|].
      unfold space_free; simpl; now rewrite Hch.
Qed.

Lemma split_layout (header : string) : layout header (split header).
Proof. now apply (split_from_layout header EmptyString). Qed.

(** A header has one layout only, and [split] finds it. *)
Lemma layout_split (header : string) (ws : list string) :
  layout header ws -> split header = ws.
Proof.
  induction 1 as [sp Hsp|sp x Hsp [Hx Hfx]
                  |sp x gap rest ws Hsp [Hx Hfx] Hgap Hne _ IH].
  - now apply split_blank.
  - pose proof (split_one sp x EmptyString Hsp Hx Hfx eq_refl) as Hone.
    now rewrite append_empty_r in Hone.
  - unfold split in *.
    rewrite split_from_blank, split_from_word by assumption.
    rewrite split_from_gap by assumption; now rewrite IH.
Qed.

Lemma lower_byte_letter (small capital c : ascii) :
  lower_byte small = small ->
  lower_byte capital = small ->
  (forall x, lower_byte x = small -> x = small \/ x = capital) ->
  lower_byte c = small <-> letter small capital c.
Proof.
  intros Hs Hc Hinv; split; [apply Hinv|].
  now intros [-> | ->].
Qed.

Ltac letter_cases :=
  intros x; destruct x as [[] [] [] [] [] [] [] []];
  cbv; intros H; try discriminate H; auto.

Lemma lower_t (c : ascii) : lower_byte c = "t"%char <-> letter "t" "T" c.
Proof. apply lower_byte_letter; [reflexivity..|letter_cases]. Qed.

Lemma lower_o (c : ascii) : lower_byte c = "o"%char <-> letter "o" "O" c.
Proof. apply lower_byte_letter; [reflexivity..|letter_cases]. Qed.

Lemma lower_k (c : ascii) : lower_byte c = "k"%char <-> letter "k" "K" c.
Proof. apply lower_byte_letter; [reflexivity..|letter_cases]. Qed.

Lemma lower_e (c : ascii) : lower_byte c = "e"%char <-> letter "e" "E" c.
Proof. apply lower_byte_letter; [reflexivity..|letter_cases]. Qed.

Lemma lower_n (c : ascii) : lower_byte c = "n"%char <-> letter "n" "N" c.
Proof. apply lower_byte_letter; [reflexivity..|letter_cases]. Qed.

(** Lowering gives "token" exactly for the spellings of that word. *)
Lemma lower_spells (s : string) : lower s = "token" <-> spells_token s.
Proof.
  split.
  - intros Hs.
    do 6 (destruct s as [|? s]; try discriminate).
    simpl in Hs; injection Hs as H1 H2 H3 H4 H5.
    apply lower_t in H1; apply lower_o in H2; apply lower_k in H3.
    apply lower_e in H4; apply lower_n in H5.
    now eexists _, _, _, _, _.
  - intros (t & o & k & e & n & -> & Ht & Ho & Hk & He & Hn); simpl.
    apply lower_t in Ht; apply lower_o in Ho; apply lower_k in Hk.
    apply lower_e in He; apply lower_n in Hn; congruence.
Qed.

(** C6. Every header has a layout in words, and [authenticate] goes by it:
    - no word (the header is empty or blank): None, nothing raised;
    - a first word that is not a spelling of "token": None, nothing raised;
    - a spelling of "token" alone: AuthenticationFailed, no credentials
      provided;
    - a spelling of "token" and two words or more: AuthenticationFailed, the
      token string should not contain spaces;
    - a spelling of "token" and one word: what [authenticate_credentials]
      does with that word, its result wrapped.
    In the first four cases the world is untouched. *)
Theorem authenticate_by_header (cfg : Settings) (host : Host)
        (header : string) (w : World) :
  (exists ws, layout header ws) /\
  (header = EmptyString -> authenticate cfg host header w = (Ok None, w)) /\
  forall ws, layout header ws ->
    match ws with
    | [] => authenticate cfg host header w = (Ok None, w)
    | scheme :: args =>
        (~ spells_token scheme ->
         authenticate cfg host header w = (Ok None, w)) /\
        (spells_token scheme ->
         match args with
         | [] =>
             authenticate cfg host header w =
             (Raise (AuthenticationFailed msg_no_credentials), w)
         | [token] =>
             authenticate cfg host header w =
             delegated (authenticate_credentials cfg host token w)
         | _ :: _ :: _ =>
             authenticate cfg host header w =
             (Raise (AuthenticationFailed msg_spaces), w)
         end)
    end.
Proof.
  split; [exists (split header); apply split_layout|].
  split; [now intros ->|].
  intros ws Hl; apply layout_split in Hl.
  unfold authenticate; rewrite Hl.
  destruct ws as [|scheme args]; [reflexivity|].
  split.
  - intros Hs.
    destruct (lower scheme =? "token")%string eqn:Heq; [|reflexivity].
    apply String.eqb_eq, lower_spells in Heq; contradiction.
  - intros Hs; apply lower_spells, String.eqb_eq in Hs; rewrite Hs.
    cbn [negb]; destruct args as [|token [|x more]]; reflexivity.
Qed.

(** C6 at a header with white space before, between and after two words. *)
Lemma authenticate_by_header_witness :
  layout "  TOKEN   abc12345cafe " ["TOKEN"; tok_cafe] /\
  spells_token "TOKEN" /\
  authenticate (demo_cfg false) demo_host "  TOKEN   abc12345cafe "
               (world_of [row_plain]) =
  (Ok (Some (alice, row_plain)), world_of [row_plain]).
Proof.
  assert (layout "  TOKEN   abc12345cafe " ["TOKEN"; tok_cafe]) as Hl.
  { apply (layout_more "  " "TOKEN" "   " "abc12345cafe " [tok_cafe]);
      try reflexivity; try discriminate.
    - split; [discriminate|reflexivity].
    - apply (layout_more "" tok_cafe " " "" []);
        try reflexivity; try discriminate.
      + split; [discriminate|reflexivity].
      + now constructor. }
  assert (spells_token "TOKEN") as Hs.
  { exists "T"%char, "O"%char, "K"%char, "E"%char, "N"%char.
    unfold letter; repeat split; auto. }
  split; [exact Hl|]; split; [exact Hs|].
  destruct (authenticate_by_header
              (demo_cfg false) demo_host "  TOKEN   abc12345cafe "
              (world_of [row_plain])) as (_ & _ & Hcases).
  exact (proj2 (Hcases _ Hl) Hs).
Defined.

(** ** Refused deletions *)

Lemma first_refusal_found (host : Host) (n : nat) :
  forall m j,
    first_refusal host m n = Some j ->
    j < n /\ store_fault host (m + j) = true /\
    forall i, i < j -> store_fault host (m + i) = false.
Proof.
  induction n as [|n IH]; intros m j; simpl; [discriminate|].
  destruct (store_fault host m) eqn:Hm.
  - intros Hj; inversion Hj; subst; rewrite Nat.add_0_r.
    repeat split; auto; [lia|intros i Hi; lia].
  - destruct (first_refusal host (S m) n) as [j'|] eqn:Hf; [|discriminate].
    intros Hj; inversion Hj; subst.
    destruct (IH (S m) j' Hf) as (Hlt & Hfault & Hbefore).
    split; [lia|]; split.
    + now rewrite Nat.add_succ_r.
    + intros [|i] Hi; [now rewrite Nat.add_0_r|].
      rewrite Nat.add_succ_r; apply (Hbefore i); lia.
Qed.

Lemma first_refusal_exists (host : Host) (n : nat) :
  forall m j,
    j < n -> store_fault host (m + j) = true ->
    exists j0, j0 <= j /\ first_refusal host m n = Some j0.
Proof.
  induction n as [|n IH]; intros m j Hj Hfault; [lia|]; simpl.
  destruct (store_fault host m) eqn:Hm; [exists 0; split; [lia|reflexivity]|].
  destruct j as [|j]; [rewrite Nat.add_0_r in Hfault; congruence|].
  destruct (IH (S m) j) as (j0 & Hle & Hf);
    [lia | now rewrite Nat.add_succ_r in Hfault |].
  exists (S j0); split; [lia|now rewrite Hf].
Qed.

Lemma first_refusal_app (host : Host) (a b : nat) :
  forall m,
    first_refusal host m (a + b) =
    match first_refusal host m a with
    | Some j => Some j
    | None => option_map (Nat.add a) (first_refusal host (m + a) b)
    end.
Proof.
  induction a as [|a IH]; intros m; simpl.
  - rewrite Nat.add_0_r; now destruct (first_refusal host m b).
  - destruct (store_fault host m); [reflexivity|].
    rewrite IH, Nat.add_succ_r.
    destruct (first_refusal host (S m) a); simpl; [reflexivity|].
    now destruct (first_refusal host (S (m + a)) b).
Qed.

(** The first loop of [_cleanup_token] on any database: it stops at the
    first deletion that is refused. *)
Lemma sweep_others_any (host : Host) (c : AuthToken)
      (others : list AuthToken) :
  forall w,
    exists w',
      sweep_others host c others w =
      (match first_refusal host (muts w)
                           (List.length (swept host c (ticks w) others)) with
       | Some _ => Raise DatabaseError
       | None => Ok tt
       end, w') /\
      match first_refusal host (muts w)
                          (List.length (swept host c (ticks w) others)) with
      | Some j =>
          db w' = drop_rows (firstn j (swept host c (ticks w) others)) (db w) /\
          signals w' =
            signals w ++
            map other_signal (firstn j (swept host c (ticks w) others))
      | None =>
          db w' = drop_rows (swept host c (ticks w) others) (db w) /\
          signals w' =
            signals w ++ map other_signal (swept host c (ticks w) others) /\
          ticks w' = ticks w + List.length (dated_others c others) /\
          muts w' =
            muts w + List.length (swept host c (ticks w) others)
      end.
Proof.
  induction others as [|o rest IH]; intros w.
  - exists w; simpl; rewrite drop_rows_nil, app_nil_r, !Nat.add_0_r.
    now repeat split.
  - rewrite swept_cons, dated_others_cons.
    cbn [sweep_others]; unfold bind at 1.
    unfold other_digest, has_expiry, expired_at.
    destruct (negb (text_eqb (digest o) (digest c))); simpl; [|apply IH].
    destruct (expires o) as [e|]; simpl; [|apply IH].
    unfold bind at 1; unfold timezone_now at 1; cbn [fst snd].
    destruct (e <? clock host (ticks w))%Z.
    + cbn [List.length first_refusal].
      unfold bind at 1, delete, mutate; cbn [db signals ticks muts].
      destruct (store_fault host (muts w)).
      * eexists; split; [reflexivity|]; cbn [db signals firstn map].
        now rewrite drop_rows_nil, app_nil_r.
      * unfold send at 1; cbn [db signals ticks muts].
        destruct (IH (mkWorld (drop_row o (db w))
                              (signals w ++ [other_signal o])
                              (S (ticks w)) (S (muts w))))
          as (w' & Hrun & Hw').
        cbn [db signals ticks muts] in Hrun, Hw'.
        unfold other_signal in Hrun at 1.
        exists w'; rewrite Hrun.
        destruct (first_refusal host (S (muts w)) _) as [j|]; cbn [option_map].
        -- split; [reflexivity|].
           destruct Hw' as (Hdb & Hsig); rewrite Hdb, Hsig; cbn [firstn map].
           now rewrite drop_rows_cons, <- app_assoc.
        -- split; [reflexivity|].
           destruct Hw' as (Hdb & Hsig & Htk & Hmu).
           rewrite Hdb, Hsig, Htk, Hmu, drop_rows_cons, <- app_assoc.
           simpl; repeat split; lia.
    + unfold ret at 1.
      destruct (IH (mkWorld (db w) (signals w) (S (ticks w)) (muts w)))
        as (w' & Hrun & Hw').
      cbn [db signals ticks muts] in Hrun, Hw'; exists w'; rewrite Hrun.
      split; [reflexivity|].
      destruct (first_refusal host (muts w) _); [assumption|].
      destruct Hw' as (Hdb & Hsig & Htk & Hmu).
      rewrite Hdb, Hsig, Htk, Hmu; simpl; repeat split; lia.
Qed.

(** A cleanup pass one of whose deletions is refused. *)
Lemma cleanup_token_refusal (host : Host) (c : AuthToken) (w : World)
      (j : nat) :
  first_refusal host (muts w) (List.length (doomed host c w)) = Some j ->
  exists w',
    _cleanup_token host c w = (Raise DatabaseError, w') /\
    db w' = drop_rows (firstn j (doomed host c w)) (db w).
Proof.
  unfold doomed.
  set (others := filter (owned_by (user c)) (db w)).
  set (gone := swept host c (ticks w) others).
  rewrite length_app, first_refusal_app.
  unfold _cleanup_token, bind at 1, auth_token_set_all at 1.
  fold others; unfold bind at 1.
  destruct (sweep_others_any host c others w) as (w1 & Hrun & Hw1).
  fold gone in Hrun, Hw1; rewrite Hrun.
  destruct (first_refusal host (muts w) (List.length gone)) as [j0|] eqn:Hf.
  - intros Hj; inversion Hj; subst j0.
    destruct Hw1 as (Hdb & _).
    exists w1; split; [reflexivity|].
    apply first_refusal_found in Hf as (Hlt & _).
    rewrite firstn_app.
    replace (j - List.length gone) with 0 by lia.
    now rewrite firstn_O, app_nil_r.
  - destruct Hw1 as (Hdb & _ & Htk & Hmu).
    unfold expired_at; destruct (expires c) as [e|]; [|discriminate].
    unfold bind at 1, timezone_now at 1; rewrite Htk.
    destruct (e <? _)%Z; [|discriminate].
    cbn [List.length first_refusal option_map].
    unfold bind at 1, delete, mutate; cbn [db signals ticks muts].
    rewrite Hmu.
    destruct (store_fault host (muts w + List.length gone)); [|discriminate].
    intros Hj; inversion Hj; subst j.
    eexists; split; [reflexivity|]; cbn [db].
    rewrite Nat.add_0_r, firstn_app, firstn_all, Nat.sub_diag.
    now rewrite firstn_O, app_nil_r.
Qed.

(** C5, as the code has it.  A mutation that the database refuses is not
    absorbed: the call raises the [DatabaseError] and leaves the table as the
    mutations accepted before had left it,
    - when the loop has come to a candidate whose digest matches, AUTO_REFRESH
      is on, the new expiry exceeds the old one by more than
      MIN_REFRESH_INTERVAL, and the UPDATE of [renew_token] is refused;
    - when the loop has come to a candidate and the database refuses any of
      the deletions of its cleanup pass: deletion number [j] of the pass is
      mutation number [muts w0 + j], and the call stops at the first one
      refused. *)
Theorem store_failure_reaches_caller (cfg : Settings) (host : Host)
        (tok : string) (token : text) (c : AuthToken)
        (rest : list AuthToken) (w w0 : World) :
  decode_utf8 host tok = Some token ->
  reaches host token (candidates cfg token w) w (c :: rest) w0 ->
  (forall w1 d e,
      _cleanup_token host c w0 = (Ok false, w1) ->
      hash_token host token (salt c) = inr d ->
      compare_digest d (digest c) = true ->
      AUTO_REFRESH cfg = true ->
      expires c = Some e ->
      (MIN_REFRESH_INTERVAL cfg * 1000000 <
       clock host (ticks w1) + TOKEN_TTL cfg - e)%Z ->
      store_fault host (muts w1) = true ->
      exists w2,
        authenticate_credentials cfg host tok w = (Raise DatabaseError, w2) /\
        db w2 = db w1) /\
  (forall j,
      j < List.length (doomed host c w0) ->
      store_fault host (muts w0 + j) = true ->
      exists j0 w2,
        j0 <= j /\ store_fault host (muts w0 + j0) = true /\
        (forall i, i < j0 -> store_fault host (muts w0 + i) = false) /\
        authenticate_credentials cfg host tok w = (Raise DatabaseError, w2) /\
        db w2 = drop_rows (firstn j0 (doomed host c w0)) (db w0)).
Proof.
  intros Hd Hr.
  rewrite (authenticate_credentials_loop cfg host tok token w Hd).
  rewrite (reaches_try cfg host token _ _ _ _ Hr).
  split.
  - intros w1 d e Hc Hh Hm Hrf He Hov Hf.
    rewrite (try_match cfg host token c rest w0 w1 d Hc Hh Hm), Hrf.
    pose proof (renew_token_refused cfg host c w1 e He Hov Hf) as Hrn.
    destruct (renew_token cfg host c w1) as [c' [r w2]].
    cbn [snd] in Hrn; inversion Hrn; subst.
    eexists; split; reflexivity.
  - intros j Hj Hfault.
    destruct (first_refusal_exists host _ (muts w0) j Hj Hfault)
      as (j0 & Hle & Hfirst).
    destruct (first_refusal_found host _ _ _ Hfirst) as (_ & Hf0 & Hbefore).
    destruct (cleanup_token_refusal host c w0 j0 Hfirst) as (w2 & Hrun & Hdb).
    exists j0, w2; repeat split; auto.
    now apply try_cleanup_raises.
Qed.

(** C5 where the UPDATE of the renewal is refused, and where the first
    deletion of a cleanup pass is accepted and the second refused. *)
Lemma store_failure_reaches_caller_witness :
  (exists w2,
      authenticate_credentials (demo_cfg true) failing_host tok_cafe
                               (world_of [row_live]) =
      (Raise DatabaseError, w2) /\
      db w2 = [row_live]) /\
  (exists w2,
      authenticate_credentials (demo_cfg false) second_refused_host tok_cafe
                               sweep_world =
      (Raise DatabaseError, w2) /\
      db w2 = [row_stale; row_keep; row_far]).
Proof.
  split.
  - destruct (store_failure_reaches_caller
                (demo_cfg true) failing_host tok_cafe (txt tok_cafe) row_live
                [] (world_of [row_live]) (world_of [row_live]) eq_refl
                (reaches_here _ _ _ _)) as [Hrenew _].
    apply (Hrenew (mkWorld [row_live] [] 1 0) (digest row_live) 5000%Z);
      reflexivity.
  - destruct (store_failure_reaches_caller
                (demo_cfg false) second_refused_host tok_cafe (txt tok_cafe)
                row_stale [row_old; row_keep] sweep_world sweep_world eq_refl
                (reaches_here _ _ _ _)) as [_ Hdelete].
    destruct (Hdelete 1) as (j0 & w2 & Hle & Hf0 & _ & Hrun & Hdb);
      [cbn; lia | reflexivity |].
    exists w2; split; [exact Hrun|].
    destruct j0 as [|[|j0]]; [discriminate Hf0 | exact Hdb | lia].
Defined.

(** ** Expired candidates *)

(** What the loop does on its way to a candidate is a stretch of cleanup,
    and what remains are candidates of the call. *)
Lemma reaches_evolves (host : Host) (token : text) (base : list AuthToken)
      (cands l : list AuthToken) (w w0 : World) :
  reaches host token cands w l w0 ->
  incl cands base -> incl (db w) base ->
  evolves host base w w0 /\ incl l cands.
Proof.
  induction 1 as [cands w
                 |c rest w w1 l w' Hc _ IH
                 |c rest w w1 d l w' Hc _ _ _ IH]; intros Hcands Hdb.
  - split; [apply evolves_refl|apply incl_refl].
  - assert (evolves host base w w1) as Hev
        by (apply (cleanup_token_evolves host base c w w1 (Ok true)); auto;
            apply Hcands; now left).
    destruct IH as [Hev' Hl].
    + intros x Hx; apply Hcands; now right.
    + now apply (evolves_incl host base w).
    + split; [now apply evolves_trans with w1|].
      intros x Hx; right; now apply Hl.
  - assert (evolves host base w w1) as Hev
        by (apply (cleanup_token_evolves host base c w w1 (Ok false)); auto;
            apply Hcands; now left).
    destruct IH as [Hev' Hl].
    + intros x Hx; apply Hcands; now right.
    + now apply (evolves_incl host base w).
    + split; [now apply evolves_trans with w1|].
      intros x Hx; right; now apply Hl.
Qed.

(** C1, as the code has it.  Let [c] be a candidate of the call whose
    expiry lies before the clock as the call starts, and let the clock not go
    back.
    - With unique digests the call never returns [c]: the record of a
      successful call has another digest.
    - On a sound database, whenever the loop comes to [c], the cleanup pass
      reports it expired, its row is not in the table afterwards, the last
      signal of the pass is [token_expired] for the owner of [c] with source
      "auth_token", and the call goes on with the candidates after [c]; when
      the call ends the row is still not in the table and the signal is among
      those sent during the call.
    - On a sound database, when every candidate is expired as the call starts
      or has a digest other than the one computed for it, the loop comes to
      [c]: the call raises AuthenticationFailed("Invalid token."), the row of
      [c] is no longer in the table, and the "auth_token" signal for [c] is
      among those sent. *)
Theorem expired_candidate_rejected (cfg : Settings) (host : Host)
        (tok : string) (token : text) (c : AuthToken) (e : Z) (w : World) :
  monotone_clock host ->
  decode_utf8 host tok = Some token ->
  In c (candidates cfg token w) ->
  expires c = Some e ->
  (e < clock host (ticks w))%Z ->
  (unique_digests (db w) ->
   forall u t w',
     authenticate_credentials cfg host tok w = (Ok (u, t), w') ->
     digest t <> digest c) /\
  (no_faults host ->
   forall rest w0,
     reaches host token (candidates cfg token w) w (c :: rest) w0 ->
     exists w1 others,
       _cleanup_token host c w0 = (Ok true, w1) /\
       ~ In (digest c) (map digest (db w1)) /\
       signals w1 =
         signals w0 ++ map other_signal others ++ [auth_signal c] /\
       authenticate_credentials cfg host tok w =
         try_candidates cfg host token rest w1 /\
       forall res w',
         authenticate_credentials cfg host tok w = (res, w') ->
         ~ In (digest c) (map digest (db w')) /\
         exists before after,
           signals w' = signals w ++ before ++ auth_signal c :: after) /\
  (no_faults host ->
   (forall c', In c' (candidates cfg token w) ->
               expired_at (clock host (ticks w)) c' = true \/
               exists d, hash_token host token (salt c') = inr d /\
                         compare_digest d (digest c') = false) ->
   exists w' more,
     authenticate_credentials cfg host tok w =
     (Raise (AuthenticationFailed msg_invalid_token), w') /\
     ~ In (digest c) (map digest (db w')) /\
     signals w' = signals w ++ more /\
     In (auth_signal c) more).
Proof.
  intros Hmono Hd Hc He Hlt.
  rewrite (authenticate_credentials_loop cfg host tok token w Hd).
  assert (expired_at (clock host (ticks w)) c = true) as Hexp
      by (unfold expired_at; rewrite He; now apply Z.ltb_lt).
  split; [|split].
  - intros Huniq u t w' Hrun Heq.
    apply try_candidates_accepts in Hrun.
    destruct Hrun as (c0 & Hin & Hd0 & _ & _ & _ & k & Hk & Hkept).
    apply candidates_In in Hin as [Hin _].
    apply candidates_In in Hc as [Hc _].
    assert (c0 = c) as ->
        by (apply (unique_key _ _ digest (db w)); auto; congruence).
    apply (expired_at_later _ (clock host k)) in Hexp;
      [congruence | now apply Hmono].
  - intros Hnf rest w0 Hr.
    assert (incl (candidates cfg token w) (db w)) as Hcands
        by (intros r Hrin; now apply candidates_In in Hrin).
    destruct (reaches_evolves host token (db w) _ _ w w0 Hr Hcands
                              (incl_refl _)) as [Hev Hl].
    pose proof (evolves_incl host (db w) w w0 Hev (incl_refl _)) as Hdb0.
    destruct (cleanup_token_sound host c w0 Hnf)
      as (w1 & Hrun & Hdb & Hsig & _).
    assert (expired_at
              (clock host
                     (ticks w0 +
                      List.length
                        (dated_others c (filter (owned_by (user c)) (db w0)))))
              c = true) as Hown.
    { apply (expired_at_later (clock host (ticks w))); [|assumption].
      apply Hmono; destruct Hev as (Htk & _); lia. }
    rewrite Hown in Hrun, Hdb, Hsig.
    assert (~ In (digest c) (map digest (db w1))) as Hgone.
    { rewrite in_map_iff; intros (r & Hrd & Hrin).
      rewrite Hdb, drop_rows_In in Hrin; destruct Hrin as [_ Hg].
      apply (Hg c); [apply in_or_app; right; now left|assumption]. }
    exists w1, (swept host c (ticks w0) (filter (owned_by (user c)) (db w0))).
    split; [exact Hrun|]. split; [exact Hgone|]. split; [exact Hsig|].
    assert (try_candidates cfg host token (candidates cfg token w) w =
            try_candidates cfg host token rest w1) as Hgo
        by (rewrite (reaches_try cfg host token _ _ _ _ Hr);
            now apply try_skip).
    split; [exact Hgo|].
    intros res w' Hend; rewrite Hgo in Hend.
    assert (evolves host (db w) w0 w1) as Hev1.
    { apply (cleanup_token_evolves host (db w) c w0 w1 (Ok true)); auto. }
    apply (try_candidates_evolves cfg host token (db w)) in Hend.
    + destruct Hend as (w2 & Hev2 & _ & _ & Hsig2 & Hfin).
      destruct Hev as (_ & _ & _ & _ & (m0 & Hs0 & _)).
      destruct Hev2 as (_ & _ & (p & Hp) & _ & (m2 & Hs2 & _)).
      split.
      * assert (map digest (db w') = map digest (db w2)) as ->
            by (destruct Hfin as [->|(_ & c0 & e0 & _ & _ & ->)];
                [reflexivity|apply write_expires_digests]).
        rewrite Hp, in_map_iff; intros (r & Hrd & Hrin).
        apply filter_In in Hrin as [Hrin _]; apply Hgone.
        rewrite in_map_iff; now exists r.
      * exists (m0 ++ map other_signal
                     (swept host c (ticks w0)
                            (filter (owned_by (user c)) (db w0)))), m2.
        rewrite Hsig2, Hs2, Hsig, Hs0, <- !app_assoc; reflexivity.
    + intros r Hrin; apply Hcands, Hl; now right.
    + now apply (evolves_incl host (db w) w0).
  - intros Hnf Hall.
    destruct (try_stale_or_miss cfg host token (ticks w) Hnf Hmono
                                (candidates cfg token w) w (le_n _) Hall)
      as (w' & more & Hrun & _ & Hsig & Hgone).
    destruct (Hgone c Hc Hexp) as [Hin Hnot].
    exists w', more; auto.
Qed.

(** C1 as the specification words it does not hold for every call: the
    presented token is the one of [row_keep], the expired row of bob is a
    candidate too, the loop returns at [row_keep] and never comes to it; the
    row stays in the table and nothing is signalled. *)
Lemma stale_candidate_left_alone :
  In row_bob_stale
     (candidates (demo_cfg false) (txt tok_food)
                 (world_of [row_keep; row_bob_stale])) /\
  expired_at (clock demo_host 0) row_bob_stale = true /\
  authenticate_credentials (demo_cfg false) demo_host tok_food
                           (world_of [row_keep; row_bob_stale]) =
  (Ok (alice, row_keep), mkWorld [row_keep; row_bob_stale] [] 1 0).
Proof. split; [right; now left|split; reflexivity]. Qed.

Lemma stale_first_call :
  authenticate_credentials (demo_cfg false) demo_host tok_food
                           (world_of [row_old; row_keep]) =
  (Ok (alice, row_keep), mkWorld [row_keep] [auth_signal row_old] 3 1).
Proof. vm_compute; reflexivity. Qed.

(** C1 where the expired candidate stands before the one that matches, and
    where it is the only candidate. *)
Lemma expired_candidate_rejected_witness :
  monotone_clock demo_host /\
  (~ In (digest row_old) (map digest [row_keep]) /\
   exists before after,
     [auth_signal row_old] = [] ++ before ++ auth_signal row_old :: after) /\
  (exists w' more,
      authenticate_credentials (demo_cfg false) demo_host tok_cafe
                               (world_of [row_stale]) =
      (Raise (AuthenticationFailed msg_invalid_token), w') /\
      ~ In (digest row_stale) (map digest (db w')) /\
      signals w' = [] ++ more /\
      In (auth_signal row_stale) more).
Proof.
  split; [exact demo_clock_monotone|]; split.
  - destruct (expired_candidate_rejected
                (demo_cfg false) demo_host tok_food (txt tok_food) row_old
                900%Z (world_of [row_old; row_keep]) demo_clock_monotone
                eq_refl (or_introl eq_refl) eq_refl eq_refl)
      as (_ & Hreached & _).
    destruct (Hreached demo_host_sound [row_keep]
                       (world_of [row_old; row_keep]) (reaches_here _ _ _ _))
      as (w1 & others & _ & _ & _ & _ & Hend).
    exact (Hend _ _ stale_first_call).
  - destruct (expired_candidate_rejected
                (demo_cfg false) demo_host tok_cafe (txt tok_cafe) row_stale
                500%Z (world_of [row_stale]) demo_clock_monotone eq_refl
                (or_introl eq_refl) eq_refl eq_refl) as (_ & _ & Hfail).
    apply Hfail; [exact demo_host_sound|].
    intros c' [<-|[]]; left; reflexivity.
Defined.

(** ** A candidate whose row is gone *)

(** X12. A candidate whose row has left the table since the candidates
    were fetched (another instance of the row was deleted) and whose expiry
    lies before the clock: on a sound database the cleanup pass still issues
    the DELETE, which removes nothing, reports the candidate expired and
    sends the "auth_token" signal for it. *)
Theorem signal_for_a_row_already_gone (host : Host) (c : AuthToken)
        (w : World) :
  no_faults host ->
  ~ In (digest c) (map digest (db w)) ->
  let others := filter (owned_by (user c)) (db w) in
  let gone := swept host c (ticks w) others in
  expired_at
    (clock host (ticks w + List.length (dated_others c others))) c = true ->
  exists w',
    _cleanup_token host c w = (Ok true, w') /\
    db w' = drop_rows gone (db w) /\
    signals w' = signals w ++ map other_signal gone ++ [auth_signal c] /\
    muts w' = muts w + List.length gone + 1.
Proof.
  intros Hnf Habsent others gone Hown.
  destruct (cleanup_token_sound host c w Hnf)
    as (w' & Hrun & Hdb & Hsig & _ & Hmu).
  fold others gone in Hrun, Hdb, Hsig, Hmu.
  rewrite Hown in Hrun, Hdb, Hsig, Hmu.
  exists w'; split; [exact Hrun|]; split; [|split; assumption].
  rewrite Hdb, <- drop_rows_snoc; unfold drop_row; apply filter_all.
  intros r Hr; apply negb_true_iff, text_eqb_neq; intros Heq.
  apply Habsent; rewrite <- Heq; apply in_map.
  now apply drop_rows_subset in Hr.
Qed.

(** X12 at the table that a sweep has already cleared of [row_old]. *)
Lemma signal_for_a_row_already_gone_witness :
  ~ In (digest row_old) (map digest [row_keep; row_far]) /\
  exists w',
    _cleanup_token demo_host row_old (world_of [row_keep; row_far]) =
    (Ok true, w') /\
    db w' = [row_keep; row_far] /\
    signals w' = [auth_signal row_old] /\
    muts w' = 1.
Proof.
  assert (~ In (digest row_old) (map digest [row_keep; row_far])) as Habsent
      by (cbn; intros [H|[H|[]]]; discriminate H).
  split; [exact Habsent|].
  destruct (signal_for_a_row_already_gone
              demo_host row_old (world_of [row_keep; row_far])
              demo_host_sound Habsent eq_refl)
    as (w' & Hrun & Hdb & Hsig & Hmu).
  exists w'; split; [exact Hrun|]; split; [exact Hdb|];
    split; [exact Hsig|exact Hmu].
Defined.
